(** * helpers.ts: command-line argument parsing and the terminal progress spinner

    A shallow embedding of [src/helpers.ts].  JavaScript strings are
    sequences of UTF-16 code units, Numbers holding integers are [Z] values
    with the rounding of an IEEE double written out, regular expressions are
    values of a small syntax run by a backtracking matcher, and the
    event-driven spinner is a transition function on an explicit state that
    holds the closure variables of [progress] together with the timers and
    listeners it has registered. *)

From Stdlib Require Import String Ascii ZArith NArith List Bool Lia.
Import ListNotations.

(** ** JavaScript values used by the file *)

Module Js.

(** A string is a list of UTF-16 code units. *)
Definition jsstring := list N.

Definition lit (s : string) : jsstring :=
  List.map N_of_ascii (list_ascii_of_string s).

Fixpoint str_eqb (a b : jsstring) : bool :=
  match a, b with
  | [], [] => true
  | x :: a', y :: b' => N.eqb x y && str_eqb a' b'
  | _, _ => false
  end.

(** [arg.startsWith('-')] *)
Definition startsWith (c : N) (s : jsstring) : bool :=
  match s with
  | x :: _ => N.eqb x c
  | [] => false
  end.

(** Character classes of the regular expressions, on code units. *)
Definition in_range (lo hi c : N) : bool := N.leb lo c && N.leb c hi.

Definition is_digit (c : N) : bool := in_range 48 57 c.

(** [\w] is [A-Za-z0-9_]. *)
Definition is_word (c : N) : bool :=
  in_range 65 90 c || in_range 97 122 c || is_digit c || N.eqb c 95.

(** LineTerminator: LF, CR, U+2028, U+2029; [.] matches everything else. *)
Definition is_line_terminator (c : N) : bool :=
  N.eqb c 10 || N.eqb c 13 || N.eqb c 8232 || N.eqb c 8233.

Definition dot (c : N) : bool := negb (is_line_terminator c).

(** WhiteSpace and LineTerminator, the characters [ToNumber] trims. *)
Definition is_space (c : N) : bool :=
  N.eqb c 9 || N.eqb c 11 || N.eqb c 12 || N.eqb c 32 || N.eqb c 160
  || N.eqb c 5760 || in_range 8192 8202 c || N.eqb c 8239 || N.eqb c 8287
  || N.eqb c 12288 || N.eqb c 65279 || is_line_terminator c.

(** [String.prototype.toUpperCase] on the characters [\w] matches. *)
Definition toUpperCase_word (c : N) : N :=
  if in_range 97 122 c then (c - 32)%N else c.

(** *** Numbers

    A Number is an IEEE double.  The ones this file produces come from
    [ToNumber] on strings and from counting; [JNum z] is the double whose
    value is exactly the integer [z], [JOther] is a Number that is written
    with a sign, a fraction, an exponent or a radix prefix, whose value the
    embedding does not track. *)
Inductive jsnum : Type :=
| JNum (z : Z)
| JInf
| JNaN
| JOther.

Definition two53 : Z := 2 ^ 53.

(** Round a non-negative integer to the nearest double, ties to even. *)
Definition round_double (n : Z) : jsnum :=
  if (n <=? two53)%Z then JNum n
  else
    let e := (Z.log2 n - 52)%Z in
    let q := (n / 2 ^ e)%Z in
    let r := (n mod 2 ^ e)%Z in
    let half := (2 ^ (e - 1))%Z in
    let q' := if (half <? r)%Z || ((r =? half)%Z && Z.odd q)
              then (q + 1)%Z else q in
    let v := (q' * 2 ^ e)%Z in
    if (2 ^ 1024 <=? v)%Z then JInf else JNum v.

(** [i++] on a Number that counts up from 0: the sum is rounded, so the
    count stops growing at 2^53. *)
Definition incr (i : Z) : Z :=
  match round_double (i + 1) with
  | JNum z => z
  | _ => i
  end.

Definition digit_val (c : N) : Z := Z.of_N (c - 48).

(** The mathematical value of a string of decimal digits. *)
Definition dec (s : jsstring) : Z :=
  fold_left (fun acc c => (10 * acc + digit_val c)%Z) s 0%Z.

(** *** Regular expressions

    The syntax the file's patterns are written in.  [Bol] and [Eol] are [^]
    and [$] (no [m] flag is used), [Wb] is [\b]. *)
Inductive re : Type :=
| Eps
| Cls (p : N -> bool)
| Seq (a b : re)
| Alt (a b : re)
| Star (a : re)
| Bol
| Eol
| Wb.

Definition Chr (c : N) : re := Cls (N.eqb c).
Definition Plus (a : re) : re := Seq a (Star a).
Definition Opt (a : re) : re := Alt a Eps.

(** The literal text [s]. *)
Definition Str (s : string) : re :=
  fold_right (fun c r => Seq (Chr c) r) Eps (lit s).

Definition word_at (c : option N) : bool :=
  match c with
  | Some x => is_word x
  | None => false
  end.

(** Iterations of a star whose body is matched by [body]: at most [n] of
    them, one more before leaving; an iteration that consumes nothing is
    rejected. *)
Fixpoint star_loop
    (body : option N -> jsstring ->
            (option N -> jsstring -> option jsstring) -> option jsstring)
    (k : option N -> jsstring -> option jsstring)
    (n : nat) (prev : option N) (s : jsstring) : option jsstring :=
  match n with
  | O => k prev s
  | S n' =>
      match body prev s
              (fun prev' s' =>
                 if (length s' <? length s)%nat
                 then star_loop body k n' prev' s'
                 else None) with
      | Some x => Some x
      | None => k prev s
      end
  end.

(** Backtracking matcher.  [prev] is the character before the current
    position ([None] at the start of the input), [s] the rest of the input
    and [k] the continuation, which receives the position reached.  The
    alternatives are tried in the order of the language: left before
    right, the longest run of a star first. *)
Fixpoint m (r : re) (prev : option N) (s : jsstring)
    (k : option N -> jsstring -> option jsstring) : option jsstring :=
  match r with
  | Eps => k prev s
  | Cls p =>
      match s with
      | c :: s' => if p c then k (Some c) s' else None
      | [] => None
      end
  | Seq a b => m a prev s (fun prev' s' => m b prev' s' k)
  | Alt a b =>
      match m a prev s k with
      | Some x => Some x
      | None => m b prev s k
      end
  | Star a => star_loop (m a) k (length s) prev s
  | Bol => match prev with None => k prev s | Some _ => None end
  | Eol => match s with [] => k prev s | _ :: _ => None end
  | Wb =>
      if xorb (word_at prev) (word_at (hd_error s)) then k prev s else None
  end.

(** A match of [r] that starts at the current position: what is left of the
    input after it. *)
Definition match_here (r : re) (prev : option N) (s : jsstring)
  : option jsstring :=
  m r prev s (fun _ rest => Some rest).

Definition matched (s rest : jsstring) : jsstring :=
  firstn (length s - length rest) s.

(** The leftmost match: the text before it, the match, the text after. *)
Fixpoint search (r : re) (prev : option N) (s : jsstring)
  : option (jsstring * jsstring * jsstring) :=
  match match_here r prev s with
  | Some rest => Some ([], matched s rest, rest)
  | None =>
      match s with
      | [] => None
      | c :: s' =>
          match search r (Some c) s' with
          | Some (pre, mat, post) => Some (c :: pre, mat, post)
          | None => None
          end
      end
  end.

(** [re.test(s)] and [re.exec(s)?.[0]] for a pattern whose [lastIndex] is 0. *)
Definition test (r : re) (s : jsstring) : bool :=
  match search r None s with Some _ => true | None => false end.

Definition exec0 (r : re) (s : jsstring) : option jsstring :=
  match search r None s with
  | Some (_, mat, _) => Some mat
  | None => None
  end.

(** [s.replace(re, f)] without the [g] flag: the leftmost match only. *)
Definition replace (r : re) (f : jsstring -> jsstring) (s : jsstring)
  : jsstring :=
  match search r None s with
  | Some (pre, mat, post) => pre ++ f mat ++ post
  | None => s
  end.

(** [s.replace(re, f)] with the [g] flag: every match from left to right;
    after an empty match the scan moves on by one character. *)
Fixpoint scan (fuel : nat) (r : re) (f : jsstring -> jsstring)
    (prev : option N) (s : jsstring) : jsstring :=
  match fuel with
  | O => s
  | S fuel' =>
      match match_here r prev s with
      | Some rest =>
          match matched s rest with
          | [] =>
              match s with
              | [] => f []
              | c :: s' => f [] ++ c :: scan fuel' r f (Some c) s'
              end
          | c :: mat' =>
              f (c :: mat') ++ scan fuel' r f (Some (last mat' c)) rest
          end
      | None =>
          match s with
          | [] => []
          | c :: s' => c :: scan fuel' r f (Some c) s'
          end
      end
  end.

Definition replace_all (r : re) (f : jsstring -> jsstring) (s : jsstring)
  : jsstring :=
  scan (S (length s)) r f None s.

(** The replacement by the empty string. *)
Definition erase (_ : jsstring) : jsstring := [].

(** [s.split(sep)] for a separator of one character. *)
Fixpoint split_go (sep : N) (cur : jsstring) (s : jsstring) : list jsstring :=
  match s with
  | [] => [rev cur]
  | c :: s' =>
      if N.eqb c sep then rev cur :: split_go sep [] s'
      else split_go sep (c :: cur) s'
  end.

Definition split (sep : N) (s : jsstring) : list jsstring := split_go sep [] s.

(** *** [ToNumber] on a string

    StringNumericLiteral: optional white space around a decimal literal
    (sign, digits, fraction, exponent, or Infinity) or an unsigned binary,
    octal or hexadecimal integer. *)
Definition digits1 : re := Plus (Cls is_digit).
Definition sign_opt : re := Opt (Cls (fun c => N.eqb c 43 || N.eqb c 45)).
Definition exponent_opt : re :=
  Opt (Seq (Cls (fun c => N.eqb c 101 || N.eqb c 69)) (Seq sign_opt digits1)).

Definition StrUnsignedDecimalLiteral : re :=
  Alt (Str "Infinity")
   (Alt (Seq digits1 (Seq (Chr 46) (Seq (Star (Cls is_digit)) exponent_opt)))
    (Alt (Seq (Chr 46) (Seq digits1 exponent_opt))
         (Seq digits1 exponent_opt))).

Definition NonDecimalIntegerLiteral : re :=
  Seq (Chr 48)
   (Alt (Seq (Cls (fun c => N.eqb c 98 || N.eqb c 66))
             (Plus (Cls (in_range 48 49))))
    (Alt (Seq (Cls (fun c => N.eqb c 111 || N.eqb c 79))
              (Plus (Cls (in_range 48 55))))
         (Seq (Cls (fun c => N.eqb c 120 || N.eqb c 88))
              (Plus (Cls (fun c => is_digit c || in_range 97 102 c
                                   || in_range 65 70 c)))))).

Definition StrNumericLiteral : re :=
  Seq Bol
   (Seq (Alt (Seq sign_opt StrUnsignedDecimalLiteral) NonDecimalIntegerLiteral)
        Eol).

Fixpoint drop_space (s : jsstring) : jsstring :=
  match s with
  | c :: s' => if is_space c then drop_space s' else s
  | [] => []
  end.

Definition trim (s : jsstring) : jsstring :=
  rev (drop_space (rev (drop_space s))).

(** [+s]: the empty string is 0, a string of digits is its value rounded to
    a double, any other numeric literal is a Number, all else is NaN. *)
Definition to_number (s : jsstring) : jsnum :=
  match trim s with
  | [] => JNum 0
  | t =>
      if forallb is_digit t then round_double (dec t)
      else if test StrNumericLiteral t then JOther
      else JNaN
  end.

(** *** [JSON.stringify] on a string or [null] *)
Definition hex_digit (n : N) : N :=
  if (n <? 10)%N then (48 + n)%N else (87 + n)%N.

Definition UnicodeEscape (c : N) : jsstring :=
  [92; 117; hex_digit (c / 4096); hex_digit ((c / 256) mod 16);
   hex_digit ((c / 16) mod 16); hex_digit (c mod 16)]%N.

Definition is_high_surrogate (c : N) : bool := in_range 55296 56319 c.
Definition is_low_surrogate (c : N) : bool := in_range 56320 57343 c.

(** One code unit that is not the first half of a surrogate pair. *)
Definition quote_unit (c : N) : jsstring :=
  (if c =? 8 then [92; 98]
   else if c =? 9 then [92; 116]
   else if c =? 10 then [92; 110]
   else if c =? 12 then [92; 102]
   else if c =? 13 then [92; 114]
   else if c =? 34 then [92; 34]
   else if c =? 92 then [92; 92]
   else if (c <? 32) || is_high_surrogate c || is_low_surrogate c
        then UnicodeEscape c
   else [c])%N.

Fixpoint quote_body (s : jsstring) : jsstring :=
  match s with
  | [] => []
  | c :: s' =>
      if is_high_surrogate c then
        match s' with
        | d :: s'' =>
            if is_low_surrogate d then c :: d :: quote_body s''
            else UnicodeEscape c ++ quote_body s'
        | [] => UnicodeEscape c
        end
      else quote_unit c ++ quote_body s'
  end.

(** [process.stdin.read()] yields a string or [null]. *)
Definition JSON_stringify (buf : option jsstring) : jsstring :=
  match buf with
  | None => lit "null"
  | Some s => 34%N :: quote_body s ++ [34%N]
  end.

(** The character before the position reached after reading [s]. *)
Definition end_prev (prev : option N) (s : jsstring) : option N :=
  fold_left (fun _ c => Some c) s prev.

(** The longest prefix of [s] made of characters of the class [p], and the
    rest of [s]. *)
Fixpoint take_while (p : N -> bool) (s : jsstring) : jsstring :=
  match s with
  | c :: s' => if p c then c :: take_while p s' else []
  | [] => []
  end.

Fixpoint drop_while (p : N -> bool) (s : jsstring) : jsstring :=
  match s with
  | c :: s' => if p c then drop_while p s' else s
  | [] => []
  end.

(** [s] without the prefix [l], when it begins with [l]. *)
Fixpoint strip_prefix (l s : jsstring) : option jsstring :=
  match l, s with
  | [], _ => Some s
  | x :: l', c :: s' => if N.eqb x c then strip_prefix l' s' else None
  | _ :: _, [] => None
  end.

(** The continuation that ends a match: what is left of the input. *)
Definition accept : option N -> jsstring -> option jsstring :=
  fun _ rest => Some rest.

End Js.

(** ** [parseArgs] *)

Module Args.
Import Js.

Inductive value : Type :=
| VBool (b : bool)
| VNum (n : jsnum)
| VStr (s : jsstring)
| VArr (l : list jsstring).

(** The [results] object: its own properties in insertion order. *)
Definition object := list (jsstring * value).

Fixpoint get (key : jsstring) (o : object) : option value :=
  match o with
  | [] => None
  | (k, v) :: o' => if str_eqb k key then Some v else get key o'
  end.

Fixpoint put (key : jsstring) (v : value) (o : object) : object :=
  match o with
  | [] => [(key, v)]
  | (k, v0) :: o' =>
      if str_eqb k key then (k, v) :: o' else (k, v0) :: put key v o'
  end.

(** [results[key] = v].  [results] is a plain object, so an assignment to
    [__proto__] goes to the accessor of [Object.prototype], which ignores
    what is not an object: no property is created.  (The only array the
    loop assigns is stored under [args].) *)
Definition assign (key : jsstring) (v : value) (o : object) : object :=
  if str_eqb key (lit "__proto__") then o else put key v o.

Definition dash : N := 45.
Definition equals : N := 61.

(** [/^-{1,2}/] *)
Definition re_dashes : re := Seq Bol (Seq (Chr dash) (Opt (Chr dash))).
(** [/=.+/] *)
Definition re_value_part : re := Seq (Chr equals) (Plus (Cls dot)).
(** [/-\w/gi] *)
Definition re_dash_word : re := Seq (Chr dash) (Cls is_word).
(** [/^--.+=\bfalse\b/] *)
Definition re_false : re :=
  Seq Bol (Seq (Str "--") (Seq (Plus (Cls dot))
    (Seq (Chr equals) (Seq Wb (Seq (Str "false") Wb))))).
(** [/^-\w$|^--[^=]+$/] *)
Definition re_flag : re :=
  Alt (Seq Bol (Seq (Chr dash) (Seq (Cls is_word) Eol)))
      (Seq Bol (Seq (Str "--")
         (Seq (Plus (Cls (fun c => negb (N.eqb c equals)))) Eol))).
(** [/^--.+=\d+$/] *)
Definition re_number : re :=
  Seq Bol (Seq (Str "--") (Seq (Plus (Cls dot))
    (Seq (Chr equals) (Seq (Plus (Cls is_digit)) Eol)))).
(** [/^--.+=.+$/] *)
Definition re_string : re :=
  Seq Bol (Seq (Str "--") (Seq (Plus (Cls dot))
    (Seq (Chr equals) (Seq (Plus (Cls dot)) Eol)))).
(** [/^--.+=/] *)
Definition re_name_part : re :=
  Seq Bol (Seq (Str "--") (Seq (Plus (Cls dot)) (Chr equals))).

(** [t => t.substring(1).toUpperCase()] on a match of [/-\w/]. *)
Definition upper_tail (t : jsstring) : jsstring :=
  List.map toUpperCase_word (tl t).

(** The name an argument is stored under. *)
Definition key_of (arg : jsstring) : jsstring :=
  if startsWith dash arg then
    replace_all re_dash_word upper_tail
      (replace re_value_part erase (replace re_dashes erase arg))
  else lit "args".

Definition boolean_of (arg : jsstring) : option bool :=
  if test re_false arg then Some false
  else if test re_flag arg then Some true
  else None.

Definition number_of (arg : jsstring) : option jsnum :=
  if test re_number arg then Some (to_number (replace re_name_part erase arg))
  else None.

(** [!number]: [null], 0 and NaN are falsy.  ([number] comes from a string
    of digits, so it is never [JOther].) *)
Definition not_number (number : option jsnum) : bool :=
  match number with
  | None => true
  | Some (JNum z) => (z =? 0)%Z
  | Some JNaN => true
  | Some _ => false
  end.

Definition string_of (arg : jsstring) : option jsstring :=
  if not_number (number_of arg) && test re_string arg
  then Some (replace re_name_part erase arg)
  else None.

Definition withoutFlag_of (arg : jsstring) : option jsstring :=
  if negb (startsWith dash arg) then Some arg else None.

(** [number ?? boolean ?? string ?? withoutFlag] *)
Definition value_of (arg : jsstring) : option value :=
  match number_of arg with
  | Some n => Some (VNum n)
  | None =>
      match boolean_of arg with
      | Some b => Some (VBool b)
      | None =>
          match string_of arg with
          | Some s => Some (VStr s)
          | None => option_map VStr (withoutFlag_of arg)
          end
      end
  end.

Definition truthy (o : option jsstring) : bool :=
  match o with
  | Some (_ :: _) => true
  | _ => false
  end.

(** The body of the loop, for one argument. *)
Definition parse_arg (results : object) (arg : jsstring) : object :=
  let key := key_of arg in
  if str_eqb key (lit "args") && truthy (withoutFlag_of arg) then
    match get key results with
    | Some (VArr args) => put key (VArr (args ++ [arg])) results
    | _ => assign key (VArr [arg]) results
    end
  else
    match value_of arg with
    | Some v => assign key v results
    | None => results
    end.

(** [argv] is [process.argv]; its first two entries are the interpreter and
    the script. *)
Definition parseArgs (argv : list jsstring) : object :=
  fold_left parse_arg (skipn 2 argv) [].

(** The arguments that do not begin with a dash, in command-line order. *)
Definition positionals (args : list jsstring) : list jsstring :=
  filter (fun arg => negb (startsWith dash arg)) args.

(** The entry under [args] when the arguments [acc] have been collected. *)
Definition args_entry (acc : list jsstring) : option value :=
  match acc with
  | [] => None
  | _ :: _ => Some (VArr acc)
  end.

(** A command line. *)
Definition example_argv : list jsstring :=
  List.map lit ["node"; "cli.js"; "a"; "--name=John"; "-xy"; "b c"]%string.

(** The third [replace] of the key: every dash followed by a word character
    becomes that character in upper case. *)
Definition camelCase (name : jsstring) : jsstring :=
  replace_all re_dash_word upper_tail name.

(** The argument [--name=value]. *)
Definition option_arg (name value : jsstring) : jsstring :=
  dash :: dash :: name ++ equals :: value.

(** The own property names of an object. *)
Definition keys (o : object) : list jsstring := List.map fst o.

(** The patterns that ask for two dashes, a name, an equals sign and more:
    what is asked after the equals sign is [K]. *)
Definition option_re (K : re) : re :=
  Seq Bol (Seq (Str "--") (Seq (Plus (Cls dot)) (Seq (Chr equals) K))).

End Args.

(** ** [progress]: the spinner *)

Module Spinner.
Import Js.

Inductive color : Type := cyan | yellow | green | red.

(** The calls made on [process.stdout], in order. *)
Inductive out_op : Type :=
| write (s : jsstring)
| cursorTo (x : Z) (y : option jsnum)
| clearLine (dir : Z).

(** A timer armed by [setInterval]: its handle, and the [startMessage] and
    the counter [i] its callback closes over. *)
Record interval : Type := {
  handle : nat;
  startMessage : jsstring;
  i : Z
}.

(** The closure variables of one [progress] call ([message],
    [autoStopTimer], [rowNumber], [id]) and what the session has registered
    with the event loop: the one-shot [readable] listeners (each holds the
    [startMessage] of its [start]), the armed intervals, and the pending
    [sleep] of every [start] that was given a timer.  [stdout] is the output
    so far; [created], [cleared] and [ticks] count the calls of
    [setInterval] and [clearInterval] and the redraws. *)
Record session : Type := {
  message : jsstring;
  autoStopTimer : Z;
  rowNumber : option jsnum;
  id : option nat;
  listeners : list jsstring;
  intervals : list interval;
  sleeps : list (nat * Z);
  next_handle : nat;
  rawMode : bool;
  stdout : list out_op;
  created : nat;
  cleared : nat;
  ticks : nat
}.

Definition ESC : N := 27.

(** [frames] *)
Definition frames : list jsstring :=
  [[10251]; [10265]; [10297]; [10296]; [10300];
   [10292]; [10278]; [10279]; [10247]; [10255]]%N.

(** The pattern of [exec]: a left bracket, then a group that takes the rest
    of the line. *)
Definition re_bracket : re := Seq (Chr 91) (Star (Cls dot)).
(** The pattern of the first [replace]: a left bracket, or [R] followed by a
    double quote; with the [g] flag. *)
Definition re_strip : re := Alt (Chr 91) (Seq (Chr 82) (Chr 34)).

(** [x || '0'] for [x] a string or [undefined]. *)
Definition or_zero (x : option jsstring) : jsstring :=
  match x with
  | Some (c :: t) => c :: t
  | _ => lit "0"
  end.

(** [xy]: the coordinates cut out of the reply. *)
Definition coordinates (buf : option jsstring) : option (list jsstring) :=
  match exec0 re_bracket (JSON_stringify buf) with
  | Some m0 => Some (split 59 (replace_all re_strip erase m0))
  | None => None
  end.

Definition field (xy : option (list jsstring)) (n : nat) : option jsstring :=
  match xy with
  | Some l => nth_error l n
  | None => None
  end.

(** [pos.rows] and [pos.cols] *)
Definition rows (buf : option jsstring) : jsnum :=
  to_number (or_zero (field (coordinates buf) 0)).

Definition cols (buf : option jsstring) : jsnum :=
  to_number (or_zero (field (coordinates buf) 1)).

Definition emit (ops : list out_op) (w : session) : session :=
  {| message := message w; autoStopTimer := autoStopTimer w;
     rowNumber := rowNumber w; id := id w; listeners := listeners w;
     intervals := intervals w; sleeps := sleeps w;
     next_handle := next_handle w; rawMode := rawMode w;
     stdout := stdout w ++ ops;
     created := created w; cleared := cleared w; ticks := ticks w |}.

Definition drop_interval (h : nat) (l : list interval) : list interval :=
  filter (fun iv => negb (Nat.eqb (handle iv) h)) l.

(** [clearInterval(h)] *)
Definition clearInterval (h : nat) (w : session) : session :=
  {| message := message w; autoStopTimer := autoStopTimer w;
     rowNumber := rowNumber w; id := id w; listeners := listeners w;
     intervals := drop_interval h (intervals w); sleeps := sleeps w;
     next_handle := next_handle w; rawMode := rawMode w;
     stdout := stdout w;
     created := created w; cleared := S (cleared w); ticks := ticks w |}.

(** [stop] *)
Definition stop (w : session) : session :=
  match id w with
  | None => w
  | Some h =>
      let w1 := clearInterval h w in
      emit [cursorTo 0 (rowNumber w1); clearLine 0] w1
  end.

(** [process.stdin.setRawMode(true)] and
    [process.stdin.once('readable', ...)] of a [start] with message [m]. *)
Definition listen (m : jsstring) (w : session) : session :=
  {| message := message w; autoStopTimer := autoStopTimer w;
     rowNumber := rowNumber w; id := id w; listeners := listeners w ++ [m];
     intervals := intervals w; sleeps := sleeps w;
     next_handle := next_handle w; rawMode := true;
     stdout := stdout w;
     created := created w; cleared := cleared w; ticks := ticks w |}.

(** [sleep(timer)]: a timeout whose expiry resumes [start] at its [stop()]. *)
Definition sleep (timer : Z) (w : session) : session :=
  {| message := message w; autoStopTimer := autoStopTimer w;
     rowNumber := rowNumber w; id := id w; listeners := listeners w;
     intervals := intervals w;
     sleeps := sleeps w ++ [(next_handle w, timer)];
     next_handle := S (next_handle w); rawMode := rawMode w;
     stdout := stdout w;
     created := created w; cleared := cleared w; ticks := ticks w |}.

(** [start(startMessage, timer)] up to its [await]. *)
Definition start (m : jsstring) (timer : Z) (w : session) : session :=
  let w1 := stop w in
  let w2 := emit [write [10%N]] w1 in
  let w3 := listen m w2 in
  let w4 := emit [write (ESC :: lit "[6n")] w3 in
  if (timer =? 0)%Z then w4 else sleep timer w4.

(** The body of the [readable] listener of a [start] with message [m], when
    [process.stdin.read()] returns [buf]. *)
Definition on_readable (m : jsstring) (buf : option jsstring) (w : session)
  : session :=
  {| message := message w; autoStopTimer := autoStopTimer w;
     rowNumber := Some (rows buf); id := Some (next_handle w);
     listeners := listeners w;
     intervals := intervals w
                  ++ [{| handle := next_handle w; startMessage := m; i := 0 |}];
     sleeps := sleeps w;
     next_handle := S (next_handle w); rawMode := false;
     stdout := stdout w;
     created := S (created w); cleared := cleared w; ticks := ticks w |}.

Definition take_listeners (w : session) : session :=
  {| message := message w; autoStopTimer := autoStopTimer w;
     rowNumber := rowNumber w; id := id w; listeners := [];
     intervals := intervals w; sleeps := sleeps w;
     next_handle := next_handle w; rawMode := rawMode w;
     stdout := stdout w;
     created := created w; cleared := cleared w; ticks := ticks w |}.

(** The listeners run one after the other; the first [read()] takes all the
    buffered input, the later ones find none and get [null]. *)
Fixpoint run_listeners (ms : list jsstring) (buf : option jsstring)
    (w : session) : session :=
  match ms with
  | [] => w
  | m :: ms' => run_listeners ms' None (on_readable m buf w)
  end.

(** The [readable] event of [process.stdin], with [buf] buffered. *)
Definition readable (buf : option jsstring) (w : session) : session :=
  run_listeners (listeners w) buf (take_listeners w).

Definition find_interval (h : nat) (l : list interval) : option interval :=
  find (fun iv => Nat.eqb (handle iv) h) l.

Definition bump (h : nat) (l : list interval) : list interval :=
  List.map (fun iv =>
         if Nat.eqb (handle iv) h
         then {| handle := handle iv; startMessage := startMessage iv;
                 i := incr (i iv) |}
         else iv) l.

Definition frame_index (i : Z) : nat :=
  Z.to_nat (i mod Z.of_nat (length frames)).

(** [frames[i % frames.length]] *)
Definition frame (i : Z) : jsstring := nth (frame_index i) frames [].

Definition count_tick (h : nat) (w : session) : session :=
  {| message := message w; autoStopTimer := autoStopTimer w;
     rowNumber := rowNumber w; id := id w; listeners := listeners w;
     intervals := bump h (intervals w); sleeps := sleeps w;
     next_handle := next_handle w; rawMode := rawMode w;
     stdout := stdout w;
     created := created w; cleared := cleared w; ticks := S (ticks w) |}.

Definition drop_sleep (k : nat) (w : session) : session :=
  {| message := message w; autoStopTimer := autoStopTimer w;
     rowNumber := rowNumber w; id := id w; listeners := listeners w;
     intervals := intervals w;
     sleeps := filter (fun p => negb (Nat.eqb (fst p) k)) (sleeps w);
     next_handle := next_handle w; rawMode := rawMode w;
     stdout := stdout w;
     created := created w; cleared := cleared w; ticks := ticks w |}.

Definition pending_sleep (k : nat) (w : session) : bool :=
  existsb (fun p => Nat.eqb (fst p) k) (sleeps w).

(** What the program and its environment can do to a session: the five
    operations [progress] returns ([start] with the arguments given or left
    out), and the three events the session has subscribed to. *)
Inductive action : Type :=
| call_start (m : option jsstring) (timer : option Z)
| call_stop
| call_success (endMessage : jsstring)
| call_error (endMessage : jsstring)
| call_log (logMessage : jsstring)
| ev_readable (buf : option jsstring)
| ev_interval (h : nat)
| ev_timeout (k : nat).

Section Styled.

(** [chalk]: the styling of a string in a colour.  The package is not part
    of the repository; the spinner is modelled for every styling. *)
Variable chalk : color -> jsstring -> jsstring.

(** The callback of an interval: one redraw. *)
Definition redraw (iv : interval) (w : session) : session :=
  let spinner := chalk cyan (frame (i iv)) in
  let loadingMessage := chalk yellow (startMessage iv) in
  count_tick (handle iv)
    (emit [cursorTo 0 (rowNumber w); clearLine 0;
           write (spinner ++ lit " " ++ loadingMessage)] w).

(** An interval fires only while it is armed. *)
Definition tick (h : nat) (w : session) : session :=
  match find_interval h (intervals w) with
  | Some iv => redraw iv w
  | None => w
  end.

(** [success], [error] and [log] *)
Definition success (endMessage : jsstring) (w : session) : session :=
  let successMessage := chalk green (9989%N :: lit " " ++ endMessage) in
  emit [write (successMessage ++ [10%N])] (stop w).

Definition error (endMessage : jsstring) (w : session) : session :=
  let errorMessage := chalk red (9940%N :: lit " " ++ endMessage) in
  emit [write (errorMessage ++ [10%N])] (stop w).

Definition log (logMessage : jsstring) (w : session) : session :=
  emit [write logMessage] (stop w).

(** The expiry of the timeout [k] of a [sleep]. *)
Definition timeout (k : nat) (w : session) : session :=
  if pending_sleep k w then stop (drop_sleep k w) else w.

Definition default {A : Type} (o : option A) (d : A) : A :=
  match o with Some x => x | None => d end.

Definition step (w : session) (a : action) : session :=
  match a with
  | call_start m timer =>
      start (default m (message w)) (default timer (autoStopTimer w)) w
  | call_stop => stop w
  | call_success endMessage => success endMessage w
  | call_error endMessage => error endMessage w
  | call_log logMessage => log logMessage w
  | ev_readable buf => readable buf w
  | ev_interval h => tick h w
  | ev_timeout k => timeout k w
  end.

Definition run (w : session) (trace : list action) : session :=
  fold_left step trace w.

(** A trace in which [start] is never called while the cursor query of an
    earlier [start] is still unanswered. *)
Fixpoint sequential (w : session) (trace : list action) : bool :=
  match trace with
  | [] => true
  | a :: trace' =>
      match a with
      | call_start _ _ =>
          match listeners w with [] => true | _ :: _ => false end
      | _ => true
      end && sequential (step w a) trace'
  end.

End Styled.

(** The operations that end an animation. *)
Definition terminating (a : action) : bool :=
  match a with
  | call_stop | call_success _ | call_error _ | call_log _ => true
  | _ => false
  end.

Definition no_start (trace : list action) : bool :=
  forallb (fun a => match a with call_start _ _ => false | _ => true end)
          trace.

(** Every armed interval is the one [id] holds. *)
Definition owned (w : session) : bool :=
  match id w with
  | Some h => forallb (fun iv => Nat.eqb (handle iv) h) (intervals w)
  | None => match intervals w with [] => true | _ :: _ => false end
  end.

(** The session before [progress] has run [start()]. *)
Definition fresh (message : jsstring) (autoStopTimer : Z) : session :=
  {| message := message; autoStopTimer := autoStopTimer;
     rowNumber := None; id := None; listeners := []; intervals := [];
     sleeps := []; next_handle := 0; rawMode := false; stdout := [];
     created := 0; cleared := 0; ticks := 0 |}.

(** [progress(message, autoStopTimer)] *)
Definition progress (message : jsstring) (autoStopTimer : Z) : session :=
  start message autoStopTimer (fresh message autoStopTimer).

(** A styling for examples: the escape sequences of the 16-colour level. *)
Definition ansi (c : color) (s : jsstring) : jsstring :=
  let code := match c with
              | cyan => lit "36" | yellow => lit "33"
              | green => lit "32" | red => lit "31"
              end in
  ESC :: 91%N :: code ++ 109%N :: s ++ ESC :: lit "[39m".

(** The reply of the terminal to the query: the cursor is at row [r],
    column [c]. *)
Definition reply (r c : jsstring) : jsstring :=
  ESC :: 91%N :: r ++ 59%N :: c ++ [82%N].

(** The format of a reply, as a pattern: ESC, a left bracket, digits, a
    semicolon, digits, [R]. *)
Definition re_reply : re :=
  Seq Bol (Seq (Chr ESC) (Seq (Chr 91) (Seq (Plus (Cls is_digit))
    (Seq (Chr 59) (Seq (Plus (Cls is_digit)) (Seq (Chr 82) Eol)))))).

Definition well_formed (buf : option jsstring) : bool :=
  match buf with
  | Some s => test re_reply s
  | None => false
  end.

(** A character that starts no match of the pattern of [replace]. *)
Definition plain (c : N) : bool := negb (N.eqb c 91) && negb (N.eqb c 82).

(** With no interval armed and no cursor query pending, nothing but a new
    [start] brings the session back to life: no redraw happens. *)
Definition at_rest (w : session) : Prop :=
  intervals w = [] /\ listeners w = [].

(** What holds of a session driven by a sequential trace: an armed interval
    and a pending query exclude each other, the armed interval is the one
    [id] holds, and every interval created and no longer armed was cleared. *)
Record tidy (w : session) : Prop := {
  tidy_one : length (intervals w) + length (listeners w) <= 1;
  tidy_owned : owned w = true;
  tidy_count : created w <= cleared w + length (intervals w)
}.

(** A session that is animating: the terminal has replied and the interval
    has fired twice; the timeout of 500 ms is still pending. *)
Definition animating : session :=
  run ansi (progress (lit "Loading...") 500)
      [ev_readable (Some (reply (lit "12") (lit "1")));
       ev_interval 1; ev_interval 1].

(** The interval [h] is armed. *)
Definition armed (h : nat) (w : session) : bool :=
  existsb (fun iv => Nat.eqb (handle iv) h) (intervals w).

(** A trace in which no input arrives on [process.stdin]. *)
Definition no_input (trace : list action) : bool :=
  forallb (fun a => match a with ev_readable _ => false | _ => true end)
          trace.

(** A trace in which the timeout [k] of a [sleep] does not expire. *)
Definition unexpired (k : nat) (trace : list action) : bool :=
  forallb (fun a => match a with
                    | ev_timeout k' => negb (Nat.eqb k' k)
                    | _ => true
                    end) trace.

(** The session after two overlapping starts and one reply: the intervals 0
    and 1 are armed, [id] holds 1. *)
Definition overlapped : session :=
  run ansi (progress (lit "a") 0)
      [call_start (Some (lit "b")) None;
       ev_readable (Some (reply (lit "12") (lit "1")))].

(** Raw mode is on exactly while a cursor query is pending. *)
Definition raw_while_pending (w : session) : Prop :=
  rawMode w = match listeners w with [] => false | _ :: _ => true end.

(** An armed interval that [id] does not hold, with a handle already given
    out. *)
Definition orphan (h : nat) (w : session) : Prop :=
  armed h w = true /\ id w <> Some h /\ h < next_handle w.

(** A session in which no reply has been read yet. *)
Definition waiting (w : session) : Prop :=
  id w = None /\ intervals w = [] /\ ticks w = 0.

End Spinner.

(** ** [loading]: the spinner of the installer script *)

Module Installer.
Import Js Spinner.

(** What [loading] shares with the event loop and the terminal: the armed
    intervals (each with the [message] and the counter [i] of its call), the
    next handle [setInterval] returns, and the calls made on
    [process.stdout]. *)
Record console : Type := {
  timers : list interval;
  next : nat;
  out : list out_op
}.

(** [frames], as in the script. *)
Definition frames : list jsstring :=
  [[10251]; [10265]; [10297]; [10296]; [10300];
   [10292]; [10278]; [10279]; [10247]; [10255]]%N.

Definition frame (i : Z) : jsstring :=
  nth (Z.to_nat (i mod Z.of_nat (length frames))) frames [].

(** [loading(message)]: writes a newline and arms the interval; the handle
    returned stands for the function [loading] returns, which closes over
    [id]. *)
Definition loading (message : jsstring) (c : console) : nat * console :=
  (next c,
   {| timers := timers c
                ++ [{| handle := next c; startMessage := message; i := 0 |}];
      next := S (next c);
      out := out c ++ [write [10%N]] |}).



Section Styled.

Variable chalk : color -> jsstring -> jsstring.

(** The callback of the interval [h], when it fires. *)
Definition spin (h : nat) (c : console) : console :=
  match find_interval h (timers c) with
  | Some iv =>
      {| timers := bump h (timers c);
         next := next c;
         out := out c
                ++ [clearLine 0; cursorTo 0 None;
                    write (chalk cyan (frame (i iv)) ++ lit " "
                           ++ chalk yellow (startMessage iv))] |}
  | None => c
  end.


End Styled.

Definition empty_console : console := {| timers := []; next := 0; out := [] |}.

End Installer.

(** * Properties *)

Import Js Args Spinner.

(** ** Strings and patterns *)

Lemma str_eqb_spec (a b : jsstring) : str_eqb a b = true <-> a = b.
Proof.
  revert b; induction a as [|x a IH]; intros [|y b]; simpl; split;
    try congruence; try reflexivity.
  - rewrite andb_true_iff, N.eqb_eq, IH. intros [-> ->]; reflexivity.
  - intros E; injection E as -> ->. rewrite N.eqb_refl.
    apply IH; reflexivity.
Qed.

Lemma str_eqb_refl (a : jsstring) : str_eqb a a = true.
Proof. apply str_eqb_spec; reflexivity. Qed.

Lemma str_eqb_neq (a b : jsstring) : a <> b -> str_eqb a b = false.
Proof.
  intros H; destruct (str_eqb a b) eqn:E; [|reflexivity].
  apply str_eqb_spec in E; contradiction.
Qed.

Lemma digit_enum (d : N) :
  is_digit d = true -> In d [48; 49; 50; 51; 52; 53; 54; 55; 56; 57]%N.
Proof.
  unfold is_digit, in_range. rewrite andb_true_iff, !N.leb_le.
  intros [Hlo Hhi]. simpl.
  assert (d = 48 \/ d = 49 \/ d = 50 \/ d = 51 \/ d = 52 \/ d = 53 \/ d = 54
          \/ d = 55 \/ d = 56 \/ d = 57)%N by lia.
  intuition auto.
Qed.

Ltac by_digit H :=
  apply digit_enum in H; simpl in H;
  repeat (destruct H as [H|H]; [subst; reflexivity|]); contradiction.

Lemma digit_not_space d : is_digit d = true -> is_space d = false.
Proof. intros H; by_digit H. Qed.

Lemma digit_dot d : is_digit d = true -> dot d = true.
Proof. intros H; by_digit H. Qed.

Lemma digit_quote d : is_digit d = true -> quote_unit d = [d].
Proof. intros H; by_digit H. Qed.

Lemma digit_not_high d : is_digit d = true -> is_high_surrogate d = false.
Proof. intros H; by_digit H. Qed.

Lemma digit_plain d : is_digit d = true -> plain d = true.
Proof. intros H; by_digit H. Qed.

Lemma forallb_digit_impl (p : N -> bool) :
  (forall d, is_digit d = true -> p d = true) ->
  forall s, forallb is_digit s = true -> forallb p s = true.
Proof.
  intros Hp s; induction s as [|d s IH]; simpl; [reflexivity|].
  rewrite !andb_true_iff; intros [Hd Hs]; split; auto.
Qed.

Lemma quote_body_digits (ds t : jsstring) :
  forallb is_digit ds = true -> quote_body (ds ++ t) = ds ++ quote_body t.
Proof.
  induction ds as [|d ds IH]; simpl; [reflexivity|].
  rewrite andb_true_iff; intros [Hd Hs].
  rewrite (digit_not_high _ Hd), (digit_quote _ Hd), IH by assumption.
  reflexivity.
Qed.

(** A star over a character class runs to the end of a string of that class
    when the continuation accepts there. *)
Lemma star_loop_cls (p : N -> bool) k x :
  forall n s prev,
    (length s <= n)%nat -> forallb p s = true ->
    k (end_prev prev s) [] = Some x ->
    star_loop (m (Cls p)) k n prev s = Some x.
Proof.
  induction n as [|n IH]; intros s prev Hn Hp Hk.
  - destruct s; [exact Hk | simpl in Hn; lia].
  - destruct s as [|c s].
    + simpl. exact Hk.
    + simpl in Hp. apply andb_true_iff in Hp as [Hc Hs].
      assert (L : (length s <? length (c :: s))%nat = true)
        by (apply Nat.ltb_lt; simpl; lia).
      assert (E : star_loop (m (Cls p)) k n (Some c) s = Some x)
        by (apply IH; auto; simpl in Hn; lia).
      change (star_loop (m (Cls p)) k (S n) prev (c :: s))
        with (match (if p c
                     then if (length s <? length (c :: s))%nat
                          then star_loop (m (Cls p)) k n (Some c) s
                          else None
                     else None) with
              | Some y => Some y
              | None => k prev (c :: s)
              end).
      rewrite Hc, L, E. reflexivity.
Qed.

Lemma matched_all (s : jsstring) : matched s [] = s.
Proof. unfold matched. simpl. rewrite Nat.sub_0_r. apply firstn_all. Qed.

Lemma bracket_skip (c : N) (s : jsstring) prev :
  c <> 91%N -> match_here re_bracket prev (c :: s) = None.
Proof.
  intros H. unfold match_here, re_bracket, Chr. cbn [m].
  destruct (N.eqb_spec 91 c); [congruence | reflexivity].
Qed.

Lemma bracket_here (s : jsstring) prev :
  forallb dot s = true -> match_here re_bracket prev (91%N :: s) = Some [].
Proof.
  intros H. unfold match_here, re_bracket, Chr. cbn [m]. simpl N.eqb. cbv iota.
  apply star_loop_cls; auto.
Qed.

Lemma search_bracket_none (s : jsstring) :
  forall prev, ~ In 91%N s -> search re_bracket prev s = None.
Proof.
  induction s as [|c s IH]; intros prev H.
  - reflexivity.
  - cbn [search]. rewrite bracket_skip by (intros ->; apply H; left; reflexivity).
    rewrite IH; [reflexivity|]. intros Hin; apply H; right; exact Hin.
Qed.

Lemma search_bracket_found (pre s : jsstring) :
  forall prev, ~ In 91%N pre -> forallb dot s = true ->
    search re_bracket prev (pre ++ 91%N :: s) = Some (pre, 91%N :: s, []).
Proof.
  induction pre as [|c pre IH]; intros prev H Hs.
  - cbn [app search]. rewrite bracket_here by assumption.
    rewrite matched_all. reflexivity.
  - cbn [app search].
    rewrite bracket_skip by (intros ->; apply H; left; reflexivity).
    rewrite IH; auto. intros Hin; apply H; right; exact Hin.
Qed.

Lemma strip_skip (c : N) (s : jsstring) prev :
  plain c = true -> match_here re_strip prev (c :: s) = None.
Proof.
  unfold plain. rewrite !andb_true_iff, !negb_true_iff, !N.eqb_neq.
  intros [H1 H2]. unfold match_here, re_strip, Chr. cbn [m].
  destruct (N.eqb_spec 91 c); [congruence|].
  destruct (N.eqb_spec 82 c); [congruence|]. reflexivity.
Qed.

(** The scan copies characters that start no match. *)
Lemma scan_plain (ds t : jsstring) :
  forall fuel prev, forallb plain ds = true ->
    scan (length ds + fuel) re_strip erase prev (ds ++ t)
    = ds ++ scan fuel re_strip erase (end_prev prev ds) t.
Proof.
  induction ds as [|d ds IH]; intros fuel prev H; [reflexivity|].
  simpl in H. apply andb_true_iff in H as [Hd Hs].
  cbn [length app Nat.add scan]. rewrite strip_skip by assumption.
  rewrite IH by assumption. reflexivity.
Qed.

Lemma split_go_no_sep (sep : N) (s : jsstring) :
  forall cur, ~ In sep s -> split_go sep cur s = [rev cur ++ s].
Proof.
  induction s as [|c s IH]; intros cur H; simpl.
  - rewrite app_nil_r; reflexivity.
  - destruct (N.eqb_spec c sep) as [->|Hc].
    + exfalso; apply H; left; reflexivity.
    + rewrite IH by (intros Hin; apply H; right; exact Hin).
      simpl. rewrite <- app_assoc. reflexivity.
Qed.

Lemma split_go_at_sep (sep : N) (a b : jsstring) :
  forall cur, ~ In sep a ->
    split_go sep cur (a ++ sep :: b) = (rev cur ++ a) :: split_go sep [] b.
Proof.
  induction a as [|c a IH]; intros cur H; simpl.
  - rewrite N.eqb_refl, app_nil_r. reflexivity.
  - destruct (N.eqb_spec c sep) as [->|Hc].
    + exfalso; apply H; left; reflexivity.
    + rewrite IH by (intros Hin; apply H; right; exact Hin).
      simpl. rewrite <- app_assoc. reflexivity.
Qed.

Lemma digits_no_semicolon (s : jsstring) :
  forallb is_digit s = true -> ~ In 59%N s.
Proof.
  induction s as [|d s IH]; simpl; [tauto|].
  rewrite andb_true_iff. intros [Hd Hs] [E|Hin]; [|exact (IH Hs Hin)].
  subst d. discriminate Hd.
Qed.

Lemma drop_space_digits (s : jsstring) :
  forallb is_digit s = true -> drop_space s = s.
Proof.
  destruct s as [|d s]; simpl; [reflexivity|].
  rewrite andb_true_iff. intros [Hd _].
  rewrite (digit_not_space _ Hd). reflexivity.
Qed.

Lemma forallb_rev (p : N -> bool) (s : jsstring) :
  forallb p (rev s) = forallb p s.
Proof.
  induction s as [|c s IH]; simpl; [reflexivity|].
  rewrite forallb_app, IH. simpl. rewrite andb_true_r. apply andb_comm.
Qed.

Lemma trim_digits (s : jsstring) : forallb is_digit s = true -> trim s = s.
Proof.
  intros H. unfold trim. rewrite (drop_space_digits _ H).
  rewrite drop_space_digits by (rewrite forallb_rev; exact H).
  apply rev_involutive.
Qed.

(** [ToNumber] on a string of digits is their value, rounded. *)
Lemma to_number_digits (s : jsstring) :
  s <> [] -> forallb is_digit s = true -> to_number s = round_double (dec s).
Proof.
  intros Hne H. unfold to_number. rewrite (trim_digits _ H).
  destruct s as [|d s]; [congruence|]. rewrite H. reflexivity.
Qed.

Lemma round_double_exact (n : Z) : (n <= two53)%Z -> round_double n = JNum n.
Proof.
  intros H. unfold round_double.
  destruct (Z.leb_spec n two53); [reflexivity | lia].
Qed.

Lemma matched_one (c : N) (s : jsstring) : matched (c :: s) s = [c].
Proof.
  unfold matched. cbn [length].
  replace (S (length s) - length s)%nat with 1%nat by lia. reflexivity.
Qed.

Lemma scan_strip_bracket (fuel : nat) (s : jsstring) prev :
  scan (S fuel) re_strip erase prev (91%N :: s)
  = scan fuel re_strip erase (Some 91%N) s.
Proof.
  cbn [scan].
  assert (E : match_here re_strip prev (91%N :: s) = Some s) by reflexivity.
  rewrite E, matched_one. reflexivity.
Qed.

(** What the listener cuts out of a reply: the two digit strings. *)
Lemma coordinates_reply (r c : jsstring) :
  forallb is_digit r = true -> forallb is_digit c = true ->
  coordinates (Some (reply r c)) = Some [r; c].
Proof.
  intros Hr Hc. unfold coordinates, reply, exec0, JSON_stringify.
  assert (Q : quote_body (ESC :: 91%N :: r ++ 59%N :: c ++ [82%N])
              = [92; 117; 48; 48; 49; 98]%N
                ++ 91%N :: (r ++ 59%N :: c ++ [82%N])).
  { change (quote_body (ESC :: 91%N :: r ++ 59%N :: c ++ [82%N]))
      with ([92; 117; 48; 48; 49; 98; 91]%N
              ++ quote_body (r ++ 59%N :: c ++ [82%N])).
    rewrite (quote_body_digits _ _ Hr).
    change (quote_body (59%N :: c ++ [82%N]))
      with (59%N :: quote_body (c ++ [82%N])).
    rewrite (quote_body_digits _ _ Hc). reflexivity. }
  rewrite Q.
  change (34%N :: ([92; 117; 48; 48; 49; 98]%N
                     ++ 91%N :: r ++ 59%N :: c ++ [82%N]) ++ [34%N])
    with ([34; 92; 117; 48; 48; 49; 98]%N
            ++ 91%N :: ((r ++ 59%N :: c ++ [82%N]) ++ [34%N])).
  rewrite search_bracket_found.
  - unfold replace_all.
    rewrite scan_strip_bracket.
    replace ((r ++ 59%N :: c ++ [82%N]) ++ [34%N])
      with ((r ++ 59%N :: c) ++ [82; 34]%N)
      by (rewrite <- !app_assoc; simpl; rewrite <- app_assoc; reflexivity).
    cbn [length]. rewrite length_app.
    replace (S (length (r ++ 59%N :: c) + length [82; 34]%N))
      with (length (r ++ 59%N :: c) + 3)%nat by (simpl; lia).
    rewrite scan_plain.
    + change (scan 3 re_strip erase
                   (end_prev (Some 91%N) (r ++ 59%N :: c)) [82; 34]%N)
        with (@nil N).
      rewrite app_nil_r. unfold split.
      rewrite split_go_at_sep by (apply digits_no_semicolon; exact Hr).
      rewrite split_go_no_sep by (apply digits_no_semicolon; exact Hc).
      reflexivity.
    + rewrite forallb_app. simpl.
      rewrite (forallb_digit_impl plain digit_plain _ Hr).
      rewrite (forallb_digit_impl plain digit_plain _ Hc). reflexivity.
  - simpl. intuition discriminate.
  - repeat (rewrite forallb_app || cbn [forallb]).
    rewrite (forallb_digit_impl dot digit_dot _ Hr).
    rewrite (forallb_digit_impl dot digit_dot _ Hc). reflexivity.
Qed.

Lemma rows_reply (r c : jsstring) :
  r <> [] -> forallb is_digit r = true -> forallb is_digit c = true ->
  rows (Some (reply r c)) = round_double (dec r).
Proof.
  intros Hne Hr Hc. unfold rows. rewrite coordinates_reply by assumption.
  simpl field. destruct r as [|d r]; [congruence|].
  unfold or_zero. apply to_number_digits; [congruence | assumption].
Qed.

Lemma hex_digit_not_bracket (n : N) : hex_digit n <> 91%N.
Proof.
  unfold hex_digit. destruct (N.ltb_spec n 10); lia.
Qed.

Lemma UnicodeEscape_no_bracket (c : N) : ~ In 91%N (UnicodeEscape c).
Proof.
  unfold UnicodeEscape. simpl.
  intros [H|[H|[H|[H|[H|[H|[]]]]]]]; try discriminate H;
    exact (hex_digit_not_bracket _ H).
Qed.

Lemma quote_unit_bracket (c : N) : In 91%N (quote_unit c) -> c = 91%N.
Proof.
  unfold quote_unit.
  repeat match goal with
         | |- context [if ?b then _ else _] => destruct b
         end;
    try (simpl; intros [H|[H|[]]]; discriminate H).
  - intros H; exfalso; exact (UnicodeEscape_no_bracket _ H).
  - simpl. intros [H|[]]; exact H.
Qed.

(** Quoting a string for JSON introduces no left bracket. *)
Lemma quote_body_no_bracket (s : jsstring) :
  ~ In 91%N s -> ~ In 91%N (quote_body s).
Proof.
  remember (length s) as n eqn:Hn. revert s Hn.
  induction n as [n IH] using lt_wf_ind. intros s Hn Hs.
  destruct s as [|c s]; [simpl; tauto|].
  assert (Hc : c <> 91%N) by (intros ->; apply Hs; left; reflexivity).
  assert (Hs' : ~ In 91%N s) by (intros H; apply Hs; right; exact H).
  assert (Hrec : ~ In 91%N (quote_body s))
    by (apply (IH (length s)); [subst n; simpl; lia | reflexivity | exact Hs']).
  cbn [quote_body]. destruct (is_high_surrogate c).
  - destruct s as [|d s].
    + apply UnicodeEscape_no_bracket.
    + destruct (is_low_surrogate d).
      * intros [H|[H|H]].
        -- congruence.
        -- apply Hs'. left. exact H.
        -- revert H. apply (IH (length s)); [subst n; simpl; lia | reflexivity |].
           intros H; apply Hs'; right; exact H.
      * intros H. apply in_app_or in H as [H|H];
          [exact (UnicodeEscape_no_bracket _ H) | exact (Hrec H)].
  - intros H. apply in_app_or in H as [H|H];
      [exact (Hc (quote_unit_bracket _ H)) | exact (Hrec H)].
Qed.

Lemma coordinates_no_bracket (buf : option jsstring) :
  (forall s, buf = Some s -> ~ In 91%N s) -> coordinates buf = None.
Proof.
  intros H. unfold coordinates, exec0.
  rewrite search_bracket_none; [reflexivity|].
  destruct buf as [s|]; simpl.
  - intros [E|Hin]; [discriminate E|].
    apply in_app_or in Hin as [Hin|[E|[]]]; [|discriminate E].
    exact (quote_body_no_bracket s (H s eq_refl) Hin).
  - intuition discriminate.
Qed.

Lemma rows_no_bracket (buf : option jsstring) :
  (forall s, buf = Some s -> ~ In 91%N s) -> rows buf = JNum 0.
Proof.
  intros H. unfold rows. rewrite coordinates_no_bracket by exact H.
  reflexivity.
Qed.

(** ** The cursor locator *)

Section Locator.

Variable chalk : color -> jsstring -> jsstring.

Lemma readable_one (w : session) (m0 : jsstring) (buf : option jsstring) :
  listeners w = [m0] ->
  step chalk w (ev_readable buf) = on_readable m0 buf (take_listeners w).
Proof. intros H. simpl. unfold readable. rewrite H. reflexivity. Qed.

(** C2: when the reply ESC [ r ; c R (r and c strings of decimal digits, r
    not empty and at most 2^53, the range in which a Number holds every
    integer) arrives at a session whose [start] awaits it, the listener
    sets [rowNumber] to the integer r.  For ESC[12;1R the row is 12. *)
Theorem cursor_reply_row (w : session) (m0 r c : jsstring) :
  listeners w = [m0] ->
  r <> [] -> forallb is_digit r = true -> forallb is_digit c = true ->
  (dec r <= two53)%Z ->
  rowNumber (step chalk w (ev_readable (Some (reply r c))))
  = Some (JNum (dec r)).
Proof.
  intros Hl Hne Hr Hc Hb. rewrite (readable_one _ _ _ Hl). cbn [on_readable rowNumber].
  rewrite rows_reply by assumption. rewrite round_double_exact by exact Hb.
  reflexivity.
Qed.

(** C3, as the code has it: when the buffer read is absent ([null]) or holds
    no left bracket, the pattern finds nothing and [rowNumber] is set to 0.
    (A buffer with a left bracket gives the Number made from the text that
    follows it, up to the first semicolon.) *)
Theorem row_defaults_without_bracket (w : session) (m0 : jsstring)
    (buf : option jsstring) :
  listeners w = [m0] ->
  (forall s, buf = Some s -> ~ In 91%N s) ->
  rowNumber (step chalk w (ev_readable buf)) = Some (JNum 0).
Proof.
  intros Hl H. rewrite (readable_one _ _ _ Hl). cbn [on_readable rowNumber].
  rewrite rows_no_bracket by exact H. reflexivity.
Qed.

End Locator.

Lemma cursor_reply_row_12 :
  rowNumber (step ansi (progress (lit "Loading...") 0)
               (ev_readable (Some (ESC :: lit "[12;1R"))))
  = Some (JNum 12).
Proof.
  apply (@cursor_reply_row ansi (progress (lit "Loading...") 0)
           (lit "Loading...") (lit "12") (lit "1")).
  - reflexivity.
  - discriminate.
  - reflexivity.
  - reflexivity.
  - vm_compute. discriminate.
Defined.

Lemma row_defaults_without_bracket_null :
  rowNumber (step ansi (progress (lit "Loading...") 0) (ev_readable None))
  = Some (JNum 0).
Proof.
  apply (@row_defaults_without_bracket ansi (progress (lit "Loading...") 0)
           (lit "Loading...") None).
  - reflexivity.
  - discriminate.
Defined.

(** The reply "[abc" is not of the form ESC [ row ; col R, and the row the
    listener takes from it is NaN, not 0. *)
Lemma malformed_reply_row_nan :
  well_formed (Some (lit "[abc")) = false
  /\ rowNumber (step ansi (progress (lit "Loading...") 0)
                  (ev_readable (Some (lit "[abc"))))
     = Some JNaN
  /\ JNaN <> JNum 0.
Proof. repeat split; try reflexivity. discriminate. Qed.

(** ** The lifecycle of a session *)

Lemma stop_without_id (w : session) : id w = None -> stop w = w.
Proof. intros H. unfold stop. rewrite H. reflexivity. Qed.

Lemma stdout_stop (w : session) :
  stdout (stop w)
  = stdout w ++ match id w with
                | Some _ => [cursorTo 0 (rowNumber w); clearLine 0]
                | None => []
                end.
Proof.
  unfold stop. destruct (id w); simpl; [reflexivity|].
  rewrite app_nil_r. reflexivity.
Qed.

Lemma drop_interval_owned (h : nat) (l : list interval) :
  forallb (fun iv => Nat.eqb (handle iv) h) l = true -> drop_interval h l = [].
Proof.
  induction l as [|iv l IH]; simpl; [reflexivity|].
  rewrite andb_true_iff. intros [E H]. rewrite E. simpl. exact (IH H).
Qed.

Lemma intervals_stop_owned (w : session) :
  owned w = true -> intervals (stop w) = [].
Proof.
  unfold owned, stop. destruct (id w) as [h|]; simpl.
  - apply drop_interval_owned.
  - destruct (intervals w); [reflexivity | discriminate].
Qed.

Lemma listeners_stop (w : session) : listeners (stop w) = listeners w.
Proof. unfold stop. destruct (id w); reflexivity. Qed.

Lemma id_stop (w : session) : id (stop w) = id w.
Proof. unfold stop. destruct (id w) eqn:E; simpl; exact E. Qed.

Lemma rowNumber_stop (w : session) : rowNumber (stop w) = rowNumber w.
Proof. unfold stop. destruct (id w); reflexivity. Qed.

(** Once [id] is set, every [stop] draws, the second as the first. *)
Lemma stop_twice (w : session) (h : nat) :
  id w = Some h ->
  stdout (stop (stop w))
  = stdout (stop w) ++ [cursorTo 0 (rowNumber w); clearLine 0].
Proof.
  intros H. rewrite (stdout_stop (stop w)), id_stop, H, rowNumber_stop.
  reflexivity.
Qed.

Lemma ticks_stop (w : session) : ticks (stop w) = ticks w.
Proof. unfold stop. destruct (id w); reflexivity. Qed.

Lemma intervals_stop_nil (w : session) :
  intervals w = [] -> intervals (stop w) = [].
Proof.
  intros H. unfold stop. destruct (id w); simpl; [|exact H].
  rewrite H. reflexivity.
Qed.

Section Lifecycle.

Variable chalk : color -> jsstring -> jsstring.

Lemma at_rest_step (w : session) (a : action) :
  at_rest w -> no_start [a] = true ->
  at_rest (step chalk w a) /\ ticks (step chalk w a) = ticks w.
Proof.
  intros [Hi Hl] Ha. destruct a; try discriminate Ha; cbn [step].
  - unfold at_rest. rewrite listeners_stop, ticks_stop.
    auto using intervals_stop_nil.
  - unfold success, at_rest; cbn [emit intervals listeners ticks].
    rewrite listeners_stop, ticks_stop. auto using intervals_stop_nil.
  - unfold error, at_rest; cbn [emit intervals listeners ticks].
    rewrite listeners_stop, ticks_stop. auto using intervals_stop_nil.
  - unfold log, at_rest; cbn [emit intervals listeners ticks].
    rewrite listeners_stop, ticks_stop. auto using intervals_stop_nil.
  - unfold readable. rewrite Hl. unfold at_rest. simpl. auto.
  - unfold tick. rewrite Hi. simpl. unfold at_rest. auto.
  - unfold timeout. destruct (pending_sleep k w); [|unfold at_rest; auto].
    unfold at_rest. rewrite listeners_stop, ticks_stop. simpl.
    split; [split; [apply intervals_stop_nil; exact Hi | exact Hl]|reflexivity].
Qed.

Lemma at_rest_run (trace : list action) :
  forall w, at_rest w -> no_start trace = true ->
    ticks (run chalk w trace) = ticks w.
Proof.
  induction trace as [|a trace IH]; intros w Hw Ht; [reflexivity|].
  simpl in Ht. apply andb_true_iff in Ht as [Ha Ht].
  destruct (at_rest_step w a Hw) as [Hw' Hk].
  - simpl. rewrite Ha. reflexivity.
  - change (run chalk w (a :: trace)) with (run chalk (step chalk w a) trace).
    rewrite IH by assumption. exact Hk.
Qed.

End Lifecycle.

(** C1, at the input where the code departs from it: a session whose
    animation has been stopped has no interval armed, yet a second [stop]
    moves the cursor and clears the line again, because [id] still holds
    the handle of the cancelled interval. *)
Theorem second_stop_clears_again :
  let w1 := run ansi (progress (lit "Loading...") 0)
                [ev_readable (Some (reply (lit "12") (lit "1"))); call_stop] in
  intervals w1 = []
  /\ stdout (step ansi w1 call_stop)
     = stdout w1 ++ [cursorTo 0 (Some (JNum 12)); clearLine 0].
Proof. split; reflexivity. Qed.

(** ** The timeout of a [start] *)

Lemma sleeps_stop (w : session) : sleeps (stop w) = sleeps w.
Proof. unfold stop. destruct (id w); reflexivity. Qed.

Lemma handle_stop (w : session) : next_handle (stop w) = next_handle w.
Proof. unfold stop. destruct (id w); reflexivity. Qed.

Lemma pending_sleep_stop (k : nat) (w : session) :
  pending_sleep k (stop w) = pending_sleep k w.
Proof. unfold pending_sleep. rewrite sleeps_stop. reflexivity. Qed.

Lemma sleeps_run_listeners (ms : list jsstring) :
  forall buf w, sleeps (run_listeners ms buf w) = sleeps w.
Proof.
  induction ms as [|m ms IH]; intros buf w; [reflexivity|].
  cbn [run_listeners]. rewrite IH. reflexivity.
Qed.

Lemma pending_sleep_more (k : nat) (l : list (nat * Z)) (p : nat * Z) :
  existsb (fun q => Nat.eqb (fst q) k) l = true ->
  existsb (fun q => Nat.eqb (fst q) k) (l ++ [p]) = true.
Proof. intros H. rewrite existsb_app, H. reflexivity. Qed.

Lemma pending_sleep_drop (k k' : nat) (l : list (nat * Z)) :
  Nat.eqb k' k = false ->
  existsb (fun q => Nat.eqb (fst q) k)
          (filter (fun q => negb (Nat.eqb (fst q) k')) l)
  = existsb (fun q => Nat.eqb (fst q) k) l.
Proof.
  intros Hk. induction l as [|[a t] l IH]; [reflexivity|].
  cbn [filter existsb fst].
  destruct (Nat.eqb_spec a k') as [->|Ha]; cbn [negb].
  - rewrite Hk. exact IH.
  - cbn [existsb fst]. rewrite IH. reflexivity.
Qed.

(** A [start] with a non-zero timer arms a timeout: its handle is the next
    one to be given out. *)
Lemma start_arms_timeout (m : jsstring) (timer : Z) (w : session) :
  timer <> 0%Z -> pending_sleep (next_handle w) (start m timer w) = true.
Proof.
  intros Ht. unfold start. destruct (Z.eqb_spec timer 0) as [E|_]; [contradiction|].
  unfold pending_sleep, sleep. cbn [sleeps emit listen next_handle].
  rewrite handle_stop, existsb_app. cbn [existsb fst].
  rewrite Nat.eqb_refl, orb_true_r. reflexivity.
Qed.

(** A [start] with the timer 0 arms none. *)
Lemma start_without_timer (m : jsstring) (w : session) :
  sleeps (start m 0 w) = sleeps w.
Proof. unfold start. cbn [Z.eqb emit listen sleeps]. apply sleeps_stop. Qed.

Section Timeouts.

Variable chalk : color -> jsstring -> jsstring.

(** A pending timeout stays pending until it expires: nothing else in the
    session removes it. *)
Lemma pending_sleep_step (k : nat) (w : session) (a : action) :
  pending_sleep k w = true -> unexpired k [a] = true ->
  pending_sleep k (step chalk w a) = true.
Proof.
  intros Hk Ha.
  destruct a as [sm timer| | | | | |h|k0]; cbn [step].
  - unfold start.
    assert (H4 : pending_sleep k
                   (emit [write (ESC :: lit "[6n")]
                      (listen (default sm (message w))
                         (emit [write [10%N]] (stop w)))) = true).
    { unfold pending_sleep. cbn [emit listen sleeps].
      rewrite sleeps_stop. exact Hk. }
    destruct (default timer (autoStopTimer w) =? 0)%Z; [exact H4|].
    unfold pending_sleep in *. cbn [sleep sleeps] in *.
    apply pending_sleep_more. exact H4.
  - rewrite pending_sleep_stop. exact Hk.
  - unfold success, pending_sleep. cbn [emit sleeps]. rewrite sleeps_stop.
    exact Hk.
  - unfold error, pending_sleep. cbn [emit sleeps]. rewrite sleeps_stop.
    exact Hk.
  - unfold log, pending_sleep. cbn [emit sleeps]. rewrite sleeps_stop.
    exact Hk.
  - unfold readable, pending_sleep. rewrite sleeps_run_listeners. exact Hk.
  - unfold tick. destruct (find_interval h (intervals w)); exact Hk.
  - cbn [unexpired forallb] in Ha. rewrite andb_true_r in Ha.
    apply negb_true_iff in Ha.
    unfold timeout. destruct (pending_sleep k0 w); [|exact Hk].
    rewrite pending_sleep_stop. unfold pending_sleep. cbn [drop_sleep sleeps].
    rewrite pending_sleep_drop by exact Ha. exact Hk.
Qed.

Lemma pending_sleep_run (k : nat) (trace : list action) :
  forall w, pending_sleep k w = true -> unexpired k trace = true ->
    pending_sleep k (run chalk w trace) = true.
Proof.
  induction trace as [|a trace IH]; intros w Hk Ht; [exact Hk|].
  cbn [unexpired forallb] in Ht. apply andb_true_iff in Ht as [Ha Ht].
  change (run chalk w (a :: trace)) with (run chalk (step chalk w a) trace).
  apply IH; [|exact Ht]. apply pending_sleep_step; [exact Hk|].
  cbn [unexpired forallb]. rewrite Ha. reflexivity.
Qed.

End Timeouts.

Section Endings.

Variable chalk : color -> jsstring -> jsstring.

(** C4, as the code has it: a call [start(m, timer)] with a non-zero timer
    arms a timeout.  When that timeout expires, for the first time, in a
    session that is animating (the cursor reply has been consumed, no query
    is pending, and the interval [id] holds is armed and is the only one),
    [stop] runs: the cursor is moved and the line cleared once, no interval
    is left armed, and until a new [start] no redraw occurs. *)
Theorem auto_stop_when_animating (w0 : session) (m : jsstring) (timer : Z)
    (trace : list action) (h : nat) (iv : interval) :
  timer <> 0%Z ->
  unexpired (next_handle w0) trace = true ->
  let k := next_handle w0 in
  let w := run chalk (start m timer w0) trace in
  id w = Some h -> intervals w = [iv] -> handle iv = h -> listeners w = [] ->
  let w' := step chalk w (ev_timeout k) in
  stdout w' = stdout w ++ [cursorTo 0 (rowNumber w); clearLine 0]
  /\ intervals w' = []
  /\ forall trace', no_start trace' = true ->
       ticks (run chalk w' trace') = ticks w'.
Proof.
  intros Ht Hu k w Hid Hiv Hh Hl.
  assert (Hk : pending_sleep k w = true).
  { apply pending_sleep_run; [|exact Hu]. apply start_arms_timeout. exact Ht. }
  cbn [step]. unfold timeout. rewrite Hk.
  assert (Ho : owned (drop_sleep k w) = true).
  { unfold owned. cbn [drop_sleep id intervals]. rewrite Hid, Hiv. simpl.
    rewrite Hh, Nat.eqb_refl. reflexivity. }
  assert (Hi : intervals (stop (drop_sleep k w)) = [])
    by (apply intervals_stop_owned; exact Ho).
  split; [|split].
  - rewrite stdout_stop. cbn [drop_sleep stdout id rowNumber].
    rewrite Hid. reflexivity.
  - exact Hi.
  - intros trace' Ht'. apply at_rest_run; [|exact Ht'].
    split; [exact Hi|]. rewrite listeners_stop. exact Hl.
Qed.

(** C6, as the code has it: in every state [success(m)] is [stop()]
    followed by one write of the styled text made of the success glyph, a
    space and [m], then a newline, and [error(m)] is the same with the
    failure glyph.  When no cursor query is pending and the interval [id]
    holds is the only one armed, no redraw occurs afterwards until a new
    [start]. *)
Theorem success_error_stop_then_message (w : session) (endMessage : jsstring) :
  (step chalk w (call_success endMessage)
   = emit [write (chalk green (9989%N :: lit " " ++ endMessage) ++ [10%N])]
          (stop w)
   /\ stdout (step chalk w (call_success endMessage))
      = stdout (stop w)
        ++ [write (chalk green (9989%N :: lit " " ++ endMessage) ++ [10%N])]
   /\ (listeners w = [] -> owned w = true ->
       forall trace, no_start trace = true ->
         ticks (run chalk (step chalk w (call_success endMessage)) trace)
         = ticks w))
  /\
  (step chalk w (call_error endMessage)
   = emit [write (chalk red (9940%N :: lit " " ++ endMessage) ++ [10%N])]
          (stop w)
   /\ stdout (step chalk w (call_error endMessage))
      = stdout (stop w)
        ++ [write (chalk red (9940%N :: lit " " ++ endMessage) ++ [10%N])]
   /\ (listeners w = [] -> owned w = true ->
       forall trace, no_start trace = true ->
         ticks (run chalk (step chalk w (call_error endMessage)) trace)
         = ticks w)).
Proof.
  assert (R : listeners w = [] -> owned w = true ->
              forall ops, at_rest (emit ops (stop w))).
  { intros Hl Ho ops. split; cbn [emit intervals listeners].
    - apply intervals_stop_owned; exact Ho.
    - rewrite listeners_stop. exact Hl. }
  split; (split; [reflexivity|split; [reflexivity|]]);
    intros Hl Ho trace Ht; cbn [step];
    unfold success, error; rewrite (at_rest_run chalk trace _ (R Hl Ho _) Ht);
    cbn [emit ticks]; apply ticks_stop.
Qed.

(** C7, as the code has it: [log(m)] is [stop()] followed by one write of
    [m] itself, with no glyph, no styling and no newline; for "raw" the text
    written after [stop()] is the three characters r, a, w. *)
Theorem log_stop_then_raw (w : session) (logMessage : jsstring) :
  step chalk w (call_log logMessage) = emit [write logMessage] (stop w)
  /\ stdout (step chalk w (call_log logMessage))
     = stdout (stop w) ++ [write logMessage]
  /\ stdout (step chalk w (call_log (lit "raw")))
     = stdout (stop w) ++ [write [114; 97; 119]%N].
Proof. repeat split. Qed.

End Endings.

Lemma auto_stop_when_animating_500 :
  let w' := step ansi animating (ev_timeout 0) in
  stdout w' = stdout animating ++ [cursorTo 0 (Some (JNum 12)); clearLine 0]
  /\ intervals w' = []
  /\ forall trace, no_start trace = true ->
       ticks (run ansi w' trace) = ticks w'.
Proof.
  refine (auto_stop_when_animating ansi
            (fresh (lit "Loading...") 500) (lit "Loading...") 500
            [ev_readable (Some (reply (lit "12") (lit "1")));
             ev_interval 1; ev_interval 1]
            1 {| handle := 1; startMessage := lit "Loading..."; i := 2 |}
            _ _ _ _ _ _);
    try reflexivity.
  discriminate.
Defined.

(** The timeout of [start("Loading...", 500)] expires before the terminal
    has replied: nothing is cleared at the expiry, and the redraws that the
    late reply sets off are never stopped. *)
Lemma auto_stop_before_reply :
  let w0 := progress (lit "Loading...") 500 in
  let w1 := step ansi w0 (ev_timeout 0) in
  let w2 := run ansi w1 [ev_readable (Some (reply (lit "12") (lit "1")));
                         ev_interval 1; ev_interval 1] in
  pending_sleep 0 w0 = true
  /\ stdout w1 = stdout w0
  /\ sleeps w1 = []
  /\ ticks w1 = 0 /\ ticks w2 = 2 /\ length (intervals w2) = 1.
Proof. repeat split; reflexivity. Qed.

Lemma success_error_stop_then_message_done :
  (step ansi animating (call_success (lit "done"))
   = emit [write (ansi green (9989%N :: lit " " ++ lit "done") ++ [10%N])]
          (stop animating)
   /\ forall trace, no_start trace = true ->
        ticks (run ansi (step ansi animating (call_success (lit "done"))) trace)
        = ticks animating)
  /\
  (step ansi animating (call_error (lit "done"))
   = emit [write (ansi red (9940%N :: lit " " ++ lit "done") ++ [10%N])]
          (stop animating)
   /\ forall trace, no_start trace = true ->
        ticks (run ansi (step ansi animating (call_error (lit "done"))) trace)
        = ticks animating).
Proof.
  destruct (success_error_stop_then_message ansi animating (lit "done"))
    as [[E1 [_ T1]] [E2 [_ T2]]].
  split; (split; [assumption|]).
  - apply T1; reflexivity.
  - apply T2; reflexivity.
Defined.

(** [success("done")] is called before the terminal has replied: the reply
    then arms the interval, and a frame is drawn after the success text. *)
Lemma success_before_reply_then_frame :
  let w1 := step ansi (progress (lit "x") 0) (call_success (lit "done")) in
  let w2 := run ansi w1 [ev_readable (Some (reply (lit "12") (lit "1")));
                         ev_interval 0] in
  stdout w2
  = stdout w1
    ++ [cursorTo 0 (Some (JNum 12)); clearLine 0;
        write (ansi cyan (frame 0) ++ lit " " ++ ansi yellow (lit "x"))]
  /\ ticks w2 = S (ticks w1).
Proof. split; reflexivity. Qed.

(** What [log("raw")] writes after the line is cleared has three
    characters, not four. *)
Lemma log_raw_three_characters :
  stdout (step ansi animating (call_log (lit "raw")))
  = stdout animating
    ++ [cursorTo 0 (Some (JNum 12)); clearLine 0; write (lit "raw")]
  /\ length (lit "raw") = 3
  /\ length (lit "raw") <> 4.
Proof. repeat split; try reflexivity. discriminate. Qed.

(** ** One timer at a time *)

Lemma tidy_progress (message : jsstring) (timer : Z) :
  tidy (progress message timer).
Proof.
  unfold progress, start. destruct (timer =? 0)%Z; split; simpl; auto.
Qed.

Lemma tidy_emit (ops : list out_op) (w : session) : tidy w -> tidy (emit ops w).
Proof. intros [H1 H2 H3]. split; assumption. Qed.

Lemma tidy_stop (w : session) :
  tidy w -> tidy (stop w) /\ intervals (stop w) = [].
Proof.
  intros [H1 H2 H3].
  assert (Hi : intervals (stop w) = []) by (apply intervals_stop_owned; exact H2).
  split; [|exact Hi]. split.
  - rewrite Hi, listeners_stop. simpl. lia.
  - unfold owned. rewrite Hi, id_stop. destruct (id w); reflexivity.
  - rewrite Hi. unfold stop. destruct (id w) as [h|] eqn:E; simpl.
    + lia.
    + unfold owned in H2. rewrite E in H2.
      destruct (intervals w); [simpl in H3; lia | discriminate].
Qed.

Lemma tidy_drop_sleep (k : nat) (w : session) : tidy w -> tidy (drop_sleep k w).
Proof. intros [H1 H2 H3]. split; assumption. Qed.

Lemma tidy_start (m0 : jsstring) (timer : Z) (w : session) :
  tidy w -> listeners w = [] -> tidy (start m0 timer w).
Proof.
  intros Hw Hl. destruct (tidy_stop w Hw) as [[H1 H2 H3] Hi].
  rewrite listeners_stop, Hl in H1.
  unfold start. destruct (timer =? 0)%Z; split;
    cbn [sleep emit listen intervals listeners created cleared];
    try rewrite Hi; try rewrite listeners_stop, Hl; simpl; try lia;
    try (rewrite Hi in H3; simpl in H3; lia);
    unfold owned in *; cbn [sleep emit listen intervals id]; exact H2.
Qed.

Lemma tidy_readable (buf : option jsstring) (w : session) :
  tidy w -> tidy (readable buf w).
Proof.
  intros [H1 H2 H3]. unfold readable.
  destruct (listeners w) as [|m0 [|m1 ms]] eqn:Hl.
  - split; simpl; auto.
  - simpl in H1. assert (Hi : intervals w = [])
      by (destruct (intervals w); [reflexivity | simpl in H1; lia]).
    split.
    + simpl. rewrite Hi. simpl. lia.
    + unfold owned. simpl. rewrite Hi. simpl. rewrite Nat.eqb_refl. reflexivity.
    + simpl. rewrite Hi in *. simpl in *. lia.
  - simpl in H1. lia.
Qed.

Lemma bump_length (h : nat) (l : list interval) :
  length (bump h l) = length l.
Proof. unfold bump. apply length_map. Qed.

Lemma bump_handles (h h' : nat) (l : list interval) :
  forallb (fun iv => Nat.eqb (handle iv) h') (bump h l)
  = forallb (fun iv => Nat.eqb (handle iv) h') l.
Proof.
  induction l as [|iv l IH]; simpl; [reflexivity|].
  rewrite IH. destruct (Nat.eqb (handle iv) h); reflexivity.
Qed.

Section OneTimer.

Variable chalk : color -> jsstring -> jsstring.

Lemma tidy_tick (h : nat) (w : session) : tidy w -> tidy (tick chalk h w).
Proof.
  intros [H1 H2 H3]. unfold tick.
  destruct (find_interval h (intervals w)) as [iv|]; [|split; assumption].
  unfold redraw. split; cbn [count_tick emit intervals listeners created cleared].
  - rewrite bump_length. exact H1.
  - unfold owned in *. cbn [count_tick emit intervals id].
    destruct (id w) as [h'|].
    + rewrite bump_handles. exact H2.
    + destruct (intervals w); [reflexivity | discriminate].
  - rewrite bump_length. exact H3.
Qed.

Lemma tidy_step (w : session) (a : action) :
  tidy w -> sequential chalk w [a] = true -> tidy (step chalk w a).
Proof.
  intros Hw Ha. destruct a; cbn [step].
  - apply tidy_start; [exact Hw|]. simpl in Ha.
    destruct (listeners w); [reflexivity | discriminate].
  - apply tidy_stop; exact Hw.
  - apply tidy_emit, tidy_stop; exact Hw.
  - apply tidy_emit, tidy_stop; exact Hw.
  - apply tidy_emit, tidy_stop; exact Hw.
  - apply tidy_readable; exact Hw.
  - apply tidy_tick; exact Hw.
  - unfold timeout. destruct (pending_sleep k w); [|exact Hw].
    apply tidy_stop, tidy_drop_sleep; exact Hw.
Qed.

Lemma tidy_run (trace : list action) :
  forall w, tidy w -> sequential chalk w trace = true ->
    tidy (run chalk w trace).
Proof.
  induction trace as [|a trace IH]; intros w Hw Ht; [exact Hw|].
  cbn [sequential] in Ht. apply andb_true_iff in Ht as [Ha Ht].
  change (run chalk w (a :: trace)) with (run chalk (step chalk w a) trace).
  apply IH; [|exact Ht]. apply tidy_step; [exact Hw|].
  cbn [sequential]. rewrite Ha. reflexivity.
Qed.

Lemma sequential_firstn (n : nat) (trace : list action) :
  forall w, sequential chalk w trace = true ->
    sequential chalk w (firstn n trace) = true.
Proof.
  revert trace; induction n as [|n IH]; intros [|a trace] w H;
    try reflexivity.
  cbn [firstn sequential] in *. apply andb_true_iff in H as [Ha Ht].
  rewrite Ha. simpl. apply IH; exact Ht.
Qed.

(** C5, as the code has it: in a session driven by a trace in which [start]
    is never called while an earlier cursor query is unanswered, at every
    instant at most one interval is armed, and the intervals created exceed
    the calls of [clearInterval] by at most one. *)
Theorem one_timer_when_sequential (message : jsstring) (timer : Z)
    (trace : list action) (n : nat) :
  sequential chalk (progress message timer) trace = true ->
  let w := run chalk (progress message timer) (firstn n trace) in
  length (intervals w) <= 1 /\ created w <= cleared w + 1.
Proof.
  intros H.
  destruct (tidy_run (firstn n trace) _ (tidy_progress message timer)
              (sequential_firstn n trace _ H)) as [H1 _ H3].
  cbv zeta. split; lia.
Qed.

End OneTimer.

Lemma one_timer_when_sequential_restart :
  let w := run ansi (progress (lit "a") 0)
             (firstn 3 [ev_readable (Some (reply (lit "12") (lit "1")));
                        ev_interval 0;
                        call_start (Some (lit "b")) None;
                        ev_readable (Some (reply (lit "12") (lit "1")))]) in
  length (intervals w) <= 1 /\ created w <= cleared w + 1.
Proof.
  apply (one_timer_when_sequential ansi (lit "a") 0
           [ev_readable (Some (reply (lit "12") (lit "1")));
            ev_interval 0;
            call_start (Some (lit "b")) None;
            ev_readable (Some (reply (lit "12") (lit "1")))] 3).
  reflexivity.
Defined.

(** [start] is called again before the terminal has answered the query of
    the first: the reply runs both listeners, two intervals are armed and
    none has been cleared; [id] holds the second only. *)
Lemma overlapping_starts_two_timers :
  let w := run ansi (progress (lit "a") 0)
             [call_start (Some (lit "b")) None;
              ev_readable (Some (reply (lit "12") (lit "1")))] in
  length (intervals w) = 2 /\ created w = 2 /\ cleared w = 0
  /\ length (intervals (step ansi w call_stop)) = 1.
Proof. repeat split; reflexivity. Qed.

(** ** The animation *)

Lemma incr_exact (z : Z) : (z + 1 <= two53)%Z -> incr z = (z + 1)%Z.
Proof. intros H. unfold incr. rewrite round_double_exact by exact H. reflexivity. Qed.

Lemma incr_saturates : incr two53 = two53.
Proof. reflexivity. Qed.

Lemma frame_index_of_nat (n : nat) : frame_index (Z.of_nat n) = n mod 10.
Proof.
  unfold frame_index. change (Z.of_nat (length frames)) with (Z.of_nat 10).
  rewrite <- Nat2Z.inj_mod. apply Nat2Z.id.
Qed.

Lemma find_interval_bump (h : nat) (l : list interval) :
  find_interval h (bump h l)
  = option_map (fun iv => {| handle := handle iv;
                             startMessage := startMessage iv;
                             i := incr (i iv) |})
               (find_interval h l).
Proof.
  unfold find_interval.
  induction l as [|iv l IH]; simpl; [reflexivity|].
  destruct (Nat.eqb (handle iv) h) eqn:E; simpl; rewrite E; [reflexivity|].
  exact IH.
Qed.

Lemma find_interval_in (h : nat) (iv : interval) (l : list interval) :
  In iv l -> handle iv = h -> find_interval h l <> None.
Proof.
  intros Hin Hh Hnone. unfold find_interval in Hnone.
  pose proof (find_none _ _ Hnone iv Hin) as E. simpl in E.
  rewrite Hh, Nat.eqb_refl in E. discriminate E.
Qed.

Lemma run_listeners_last (ms : list jsstring) (m0 : jsstring) :
  forall buf w,
    run_listeners (ms ++ [m0]) buf w
    = on_readable m0 (match ms with [] => buf | _ :: _ => None end)
        (run_listeners ms buf w).
Proof.
  induction ms as [|a ms IH]; intros buf w; [reflexivity|].
  cbn [app run_listeners]. rewrite IH. destruct ms; reflexivity.
Qed.

Lemma run_listeners_counts (ms : list jsstring) :
  forall buf w,
    created (run_listeners ms buf w) = created w + length ms
    /\ ticks (run_listeners ms buf w) = ticks w.
Proof.
  induction ms as [|a ms IH]; intros buf w; simpl; [lia|].
  destruct (IH None (on_readable a buf w)) as [H1 H2].
  rewrite H1, H2. simpl. lia.
Qed.

Section Animation.

Variable chalk : color -> jsstring -> jsstring.

Lemma tick_armed (w : session) (h : nat) (msg : jsstring) (z : Z) :
  find_interval h (intervals w)
  = Some {| handle := h; startMessage := msg; i := z |} ->
  find_interval h (intervals (tick chalk h w))
  = Some {| handle := h; startMessage := msg; i := incr z |}
  /\ rowNumber (tick chalk h w) = rowNumber w
  /\ stdout (tick chalk h w)
     = stdout w ++ [cursorTo 0 (rowNumber w); clearLine 0;
                    write (chalk cyan (frame z) ++ lit " " ++ chalk yellow msg)]
  /\ ticks (tick chalk h w) = S (ticks w).
Proof.
  intros H. unfold tick. rewrite H. unfold redraw.
  cbn [count_tick emit intervals rowNumber stdout ticks handle startMessage i].
  rewrite find_interval_bump, H. repeat split.
Qed.

Lemma ticks_armed (w : session) (h : nat) (msg : jsstring) (n : nat) :
  find_interval h (intervals w)
  = Some {| handle := h; startMessage := msg; i := 0 |} ->
  (Z.of_nat n <= two53)%Z ->
  find_interval h (intervals (Nat.iter n (tick chalk h) w))
  = Some {| handle := h; startMessage := msg; i := Z.of_nat n |}
  /\ rowNumber (Nat.iter n (tick chalk h) w) = rowNumber w.
Proof.
  intros H. induction n as [|n IH]; intros Hn; [split; [exact H | reflexivity]|].
  destruct IH as [IH1 IH2]; [lia|].
  rewrite Nat.iter_succ. destruct (tick_armed _ _ _ _ IH1) as (T1 & T2 & _).
  rewrite T1, T2, IH2. rewrite incr_exact by lia.
  split; [|reflexivity]. do 2 f_equal. lia.
Qed.

(** C8: in a session where the interval [h] has just been armed (its
    counter is 0), after [n] redraws of that interval, for [n] up to 2^53
    (the range in which a Number counts exactly), the counter is [n] and
    the next redraw, the one numbered [n] from 0, moves the cursor, clears
    the line and writes the glyph at index [n mod 10] of [frames], a space
    and the message. *)
Theorem frame_cycle (w : session) (h : nat) (msg : jsstring) (n : nat) :
  find_interval h (intervals w)
  = Some {| handle := h; startMessage := msg; i := 0 |} ->
  (Z.of_nat n <= two53)%Z ->
  let wn := Nat.iter n (tick chalk h) w in
  option_map i (find_interval h (intervals wn)) = Some (Z.of_nat n)
  /\ stdout (step chalk wn (ev_interval h))
     = stdout wn
       ++ [cursorTo 0 (rowNumber w); clearLine 0;
           write (chalk cyan (nth (n mod 10) frames [])
                  ++ lit " " ++ chalk yellow msg)]
  /\ length frames = 10.
Proof.
  intros H Hn. destruct (ticks_armed w h msg n H Hn) as [F R].
  cbv zeta. rewrite F. split; [reflexivity|]. split; [|reflexivity].
  cbn [step]. destruct (tick_armed _ _ _ _ F) as (_ & _ & T & _).
  rewrite T, R. unfold frame. rewrite frame_index_of_nat. reflexivity.
Qed.

(** C9: in a session with a cursor query pending, [stop], [success],
    [error] and [log] leave the [readable] listener in place; when input
    then arrives the listener arms an interval, which [id] now holds, and
    that interval redraws. *)
Theorem pending_query_survives_stop (w : session) (a : action)
    (buf : option jsstring) :
  listeners w <> [] -> terminating a = true ->
  let w1 := step chalk w a in
  let w2 := step chalk w1 (ev_readable buf) in
  listeners w1 = listeners w
  /\ created w2 = created w1 + length (listeners w)
  /\ exists h msg,
       id w2 = Some h
       /\ In {| handle := h; startMessage := msg; i := 0 |} (intervals w2)
       /\ ticks (step chalk w2 (ev_interval h)) = S (ticks w2)
       /\ stdout (step chalk w2 (ev_interval h)) <> stdout w2.
Proof.
  intros Hne Ha. cbv zeta.
  assert (Hl : listeners (step chalk w a) = listeners w).
  { destruct a; try discriminate Ha; cbn [step];
      unfold success, error, log; cbn [emit listeners]; apply listeners_stop. }
  split; [exact Hl|].
  destruct (exists_last Hne) as (ms & m0 & E).
  cbn [step]. unfold readable. rewrite Hl, E, run_listeners_last.
  set (W := run_listeners ms buf (take_listeners (step chalk w a))).
  set (b := match ms with [] => buf | _ :: _ => None end).
  split.
  - cbn [on_readable created]. unfold W.
    destruct (run_listeners_counts ms buf (take_listeners (step chalk w a)))
      as [C _]. rewrite C, length_app. simpl. lia.
  - exists (next_handle W), m0. split; [reflexivity|].
    assert (Hin : In {| handle := next_handle W; startMessage := m0; i := 0 |}
                     (intervals (on_readable m0 b W)))
      by (cbn [on_readable intervals]; apply in_or_app; right; left; reflexivity).
    split; [exact Hin|].
    unfold tick.
    destruct (find_interval (next_handle W) (intervals (on_readable m0 b W)))
      as [iv|] eqn:F.
    + split; [reflexivity|]. unfold redraw. cbn [count_tick emit stdout].
      intros Heq. apply (f_equal (@length out_op)) in Heq.
      rewrite length_app in Heq. simpl in Heq. lia.
    + exfalso. exact (find_interval_in _ _ _ Hin eq_refl F).
Qed.

End Animation.

Lemma frame_cycle_12 :
  let w := run ansi (progress (lit "Loading...") 0)
             [ev_readable (Some (reply (lit "12") (lit "1")))] in
  let wn := Nat.iter 12 (tick ansi 0) w in
  option_map i (find_interval 0 (intervals wn)) = Some 12%Z
  /\ stdout (step ansi wn (ev_interval 0))
     = stdout wn
       ++ [cursorTo 0 (Some (JNum 12)); clearLine 0;
           write (ansi cyan [10297%N] ++ lit " "
                  ++ ansi yellow (lit "Loading..."))]
  /\ length frames = 10.
Proof.
  apply (frame_cycle ansi
           (run ansi (progress (lit "Loading...") 0)
              [ev_readable (Some (reply (lit "12") (lit "1")))])
           0 (lit "Loading...") 12).
  - reflexivity.
  - vm_compute. discriminate.
Defined.

Lemma pending_query_survives_stop_success :
  let w := progress (lit "Loading...") 0 in
  let w1 := step ansi w (call_success (lit "done")) in
  let w2 := step ansi w1 (ev_readable (Some (reply (lit "12") (lit "1")))) in
  listeners w1 = listeners w
  /\ created w2 = created w1 + length (listeners w)
  /\ exists h msg,
       id w2 = Some h
       /\ In {| handle := h; startMessage := msg; i := 0 |} (intervals w2)
       /\ ticks (step ansi w2 (ev_interval h)) = S (ticks w2)
       /\ stdout (step ansi w2 (ev_interval h)) <> stdout w2.
Proof.
  apply (pending_query_survives_stop ansi (progress (lit "Loading...") 0)
           (call_success (lit "done"))
           (Some (reply (lit "12") (lit "1")))).
  - discriminate.
  - reflexivity.
Defined.

(** ** [parseArgs] *)

Lemma get_put_same (key : jsstring) (v : value) (o : object) :
  get key (put key v o) = Some v.
Proof.
  induction o as [|[k v0] o IH]; simpl.
  - rewrite str_eqb_refl. reflexivity.
  - destruct (str_eqb k key) eqn:E; simpl; rewrite E; [reflexivity | exact IH].
Qed.

Lemma get_put_other (key key' : jsstring) (v : value) (o : object) :
  key' <> key -> get key' (put key v o) = get key' o.
Proof.
  intros H. induction o as [|[k v0] o IH]; simpl.
  - rewrite str_eqb_neq by congruence. reflexivity.
  - destruct (str_eqb k key) eqn:E; simpl.
    + apply str_eqb_spec in E. subst k.
      rewrite !str_eqb_neq by congruence. reflexivity.
    + rewrite IH. reflexivity.
Qed.

Lemma get_assign_other (key key' : jsstring) (v : value) (o : object) :
  key' <> key -> get key' (assign key v o) = get key' o.
Proof.
  intros H. unfold assign. destruct (str_eqb key (lit "__proto__"));
    [reflexivity | apply get_put_other; exact H].
Qed.

(** A pattern that begins with [^] matches at the start of the input only. *)
Lemma search_anchored_later (r : re) (s : jsstring) :
  forall c, search (Seq Bol r) (Some c) s = None.
Proof.
  induction s as [|d s IH]; intros c; cbn [search]; unfold match_here;
    cbn [m]; [reflexivity|]. rewrite IH. reflexivity.
Qed.

Lemma test_anchored (r : re) (s : jsstring) :
  match_here (Seq Bol r) None s = None -> test (Seq Bol r) s = false.
Proof.
  intros H. unfold test. destruct s as [|c s]; cbn [search]; rewrite H;
    [reflexivity|]. rewrite search_anchored_later. reflexivity.
Qed.

Lemma search_anchored2_later (a b : re) (s : jsstring) :
  forall c, search (Alt (Seq Bol a) (Seq Bol b)) (Some c) s = None.
Proof.
  induction s as [|d s IH]; intros c; cbn [search]; unfold match_here;
    cbn [m]; [reflexivity|]. rewrite IH. reflexivity.
Qed.

Lemma test_anchored2 (a b : re) (s : jsstring) :
  match_here (Alt (Seq Bol a) (Seq Bol b)) None s = None ->
  test (Alt (Seq Bol a) (Seq Bol b)) s = false.
Proof.
  intros H. unfold test. destruct s as [|c s]; cbn [search]; rewrite H;
    [reflexivity|]. rewrite search_anchored2_later. reflexivity.
Qed.

(** The patterns that begin with two dashes fail on a single dash. *)
Lemma two_dashes_needed (r : re) (x : N) (t : jsstring) :
  x <> dash -> match_here (Seq Bol (Seq (Str "--") r)) None (dash :: x :: t) = None.
Proof.
  intros H. unfold match_here, Str, lit, Chr, dash in *. cbn -[N.eqb].
  rewrite N.eqb_refl. destruct (N.eqb_spec 45 x); [congruence | reflexivity].
Qed.

Lemma single_dash_no_value (x : N) (t : jsstring) :
  x <> dash -> t <> [] -> value_of (dash :: x :: t) = None.
Proof.
  intros Hx Ht.
  assert (F : test re_false (dash :: x :: t) = false)
    by (apply test_anchored, two_dashes_needed; exact Hx).
  assert (Nn : test re_number (dash :: x :: t) = false)
    by (apply test_anchored, two_dashes_needed; exact Hx).
  assert (St : test re_string (dash :: x :: t) = false)
    by (apply test_anchored, two_dashes_needed; exact Hx).
  assert (Fl : test re_flag (dash :: x :: t) = false).
  { apply test_anchored2. unfold match_here, re_flag, Str, lit, Chr, dash in *.
    destruct t as [|y t]; [congruence|]. cbn -[N.eqb is_word].
    rewrite N.eqb_refl.
    destruct (is_word x); destruct (N.eqb_spec 45 x); congruence. }
  unfold value_of, number_of, boolean_of, string_of, withoutFlag_of.
  rewrite F, Nn, St, Fl. simpl. rewrite andb_false_r. reflexivity.
Qed.

Lemma positional_key (arg : jsstring) :
  startsWith dash arg = false -> key_of arg = lit "args".
Proof. intros H. unfold key_of. rewrite H. reflexivity. Qed.

Lemma args_not_proto : str_eqb (lit "args") (lit "__proto__") = false.
Proof. reflexivity. Qed.

Lemma parse_arg_positional (results : object) (arg : jsstring)
    (acc : list jsstring) :
  startsWith dash arg = false -> arg <> [] ->
  get (lit "args") results = args_entry acc ->
  get (lit "args") (parse_arg results arg) = args_entry (acc ++ [arg]).
Proof.
  intros Hd Hne Hg. unfold parse_arg, withoutFlag_of.
  rewrite (positional_key _ Hd), Hd, str_eqb_refl. simpl negb. cbv iota.
  destruct arg as [|c arg]; [congruence|]. simpl truthy. simpl andb. cbv iota.
  rewrite Hg. destruct acc as [|a acc]; simpl args_entry.
  - unfold assign. rewrite args_not_proto. apply get_put_same.
  - apply get_put_same.
Qed.

Lemma parse_arg_option (results : object) (arg : jsstring) :
  startsWith dash arg = true -> key_of arg <> lit "args" ->
  get (lit "args") (parse_arg results arg) = get (lit "args") results.
Proof.
  intros Hd Hk. unfold parse_arg.
  rewrite (str_eqb_neq _ _ Hk). simpl andb. cbv iota.
  destruct (value_of arg); [|reflexivity].
  apply get_assign_other. congruence.
Qed.

Lemma fold_parse_arg (args : list jsstring) :
  forall results acc,
    (forall arg, In arg args -> arg <> []) ->
    (forall arg, In arg args -> startsWith dash arg = true ->
                 key_of arg <> lit "args") ->
    get (lit "args") results = args_entry acc ->
    get (lit "args") (fold_left parse_arg args results)
    = args_entry (acc ++ positionals args).
Proof.
  induction args as [|arg args IH]; intros results acc Hne Hk Hg.
  - simpl. rewrite app_nil_r. exact Hg.
  - cbn [fold_left positionals filter].
    destruct (startsWith dash arg) eqn:Hd; cbn [negb].
    + apply IH.
      * intros a Ha; apply Hne; right; exact Ha.
      * intros a Ha; apply Hk; right; exact Ha.
      * rewrite parse_arg_option; [exact Hg | exact Hd |].
        apply Hk; [left; reflexivity | exact Hd].
    + change (acc ++ arg :: filter (fun a => negb (startsWith dash a)) args)
        with (acc ++ [arg] ++ positionals args).
      rewrite app_assoc. apply IH.
      * intros a Ha; apply Hne; right; exact Ha.
      * intros a Ha; apply Hk; right; exact Ha.
      * apply parse_arg_positional; [exact Hd | | exact Hg].
        apply Hne; left; reflexivity.
Qed.

(** C10, as the code has it: when no argument is the empty string and no
    argument that begins with a dash has the key [args], the [args] entry
    of the result is the array of the arguments that do not begin with a
    dash, in command-line order (and there is no entry when there is none).
    In every case the loop stores such an argument under no other key, and
    an argument made of one dash followed by two characters or more, the
    first of them not a dash, changes nothing. *)
Theorem positionals_collected (argv : list jsstring) :
  (forall arg, In arg (skipn 2 argv) -> arg <> []) ->
  (forall arg, In arg (skipn 2 argv) -> startsWith dash arg = true ->
               key_of arg <> lit "args") ->
  get (lit "args") (parseArgs argv)
  = match positionals (skipn 2 argv) with
    | [] => None
    | l => Some (VArr l)
    end
  /\ (forall results arg key,
        startsWith dash arg = false -> key <> lit "args" ->
        get key (parse_arg results arg) = get key results)
  /\ (forall results x t,
        x <> dash -> t <> [] -> parse_arg results (dash :: x :: t) = results).
Proof.
  intros Hne Hk. split; [|split].
  - unfold parseArgs.
    rewrite (fold_parse_arg (skipn 2 argv) [] [] Hne Hk eq_refl).
    cbn [app]. destruct (positionals (skipn 2 argv)); reflexivity.
  - intros results arg key Hd Hkey. unfold parse_arg.
    rewrite (positional_key _ Hd), str_eqb_refl. cbn [andb].
    destruct (truthy (withoutFlag_of arg)).
    + destruct (get (lit "args") results) as [[b|n0|s0|l]|];
        try (apply get_assign_other; exact Hkey).
      apply get_put_other; exact Hkey.
    + destruct (value_of arg); [|reflexivity].
      apply get_assign_other; exact Hkey.
  - intros results x t Hx Ht. unfold parse_arg, withoutFlag_of.
    rewrite (single_dash_no_value x t Hx Ht).
    change (startsWith dash (dash :: x :: t)) with true.
    cbn [negb truthy]. rewrite andb_false_r. reflexivity.
Qed.

Lemma positionals_collected_example :
  get (lit "args") (parseArgs example_argv)
  = Some (VArr [lit "a"; lit "b c"])
  /\ (forall results arg key,
        startsWith dash arg = false -> key <> lit "args" ->
        get key (parse_arg results arg) = get key results)
  /\ (forall results x t,
        x <> dash -> t <> [] -> parse_arg results (dash :: x :: t) = results).
Proof.
  apply (positionals_collected example_argv).
  - simpl. intros arg H.
    repeat (destruct H as [H|H]; [subst arg; discriminate|]). contradiction.
  - simpl. intros arg H.
    repeat (destruct H as [H|H]; [subst arg; vm_compute; discriminate|]).
    contradiction.
Defined.

(** The flag [--args] after the argument "a": the entry [args] is [true],
    and the argument is no longer in the result. *)
Lemma args_flag_overwrites_positionals :
  let argv := List.map lit ["node"; "cli.js"; "a"; "--args"]%string in
  positionals (skipn 2 argv) = [lit "a"]
  /\ parseArgs argv = [(lit "args", VBool true)].
Proof. split; reflexivity. Qed.

(** * Further properties *)

(** ** More on the matcher *)

Lemma end_prev_app (prev : option N) (a b : jsstring) :
  end_prev prev (a ++ b) = end_prev (end_prev prev a) b.
Proof. unfold end_prev. apply fold_left_app. Qed.

(** The step of a star over a character class. *)
Lemma star_loop_cls_step (p : N -> bool) k (n : nat) prev (c : N)
    (s : jsstring) :
  star_loop (m (Cls p)) k (S n) prev (c :: s)
  = match (if p c then star_loop (m (Cls p)) k n (Some c) s else None) with
    | Some y => Some y
    | None => k prev (c :: s)
    end.
Proof.
  assert (L : (length s <? length (c :: s))%nat = true)
    by (apply Nat.ltb_lt; simpl; lia).
  change (star_loop (m (Cls p)) k (S n) prev (c :: s))
    with (match (if p c
                 then if (length s <? length (c :: s))%nat
                      then star_loop (m (Cls p)) k n (Some c) s
                      else None
                 else None) with
          | Some y => Some y
          | None => k prev (c :: s)
          end).
  rewrite L. reflexivity.
Qed.

(** A star over a class fails when the continuation fails wherever the star
    can stop. *)
Lemma star_cls_fail (p : N -> bool) k :
  forall n s prev,
    (forall a b, s = a ++ b -> forallb p a = true ->
                 k (end_prev prev a) b = None) ->
    star_loop (m (Cls p)) k n prev s = None.
Proof.
  induction n as [|n IH]; intros s prev H.
  - exact (H [] s eq_refl eq_refl).
  - destruct s as [|c s].
    + exact (H [] [] eq_refl eq_refl).
    + rewrite star_loop_cls_step.
      assert (E : (if p c then star_loop (m (Cls p)) k n (Some c) s else None)
                  = None).
      { destruct (p c) eqn:Hc; [|reflexivity]. apply IH.
        intros a b -> Ha. apply (H (c :: a) b eq_refl). simpl. rewrite Hc. exact Ha. }
      rewrite E. exact (H [] (c :: s) eq_refl eq_refl).
Qed.

(** A star over a class gives back what it took until the continuation
    accepts: it stops in front of [b] when the continuation accepts there
    and nowhere further on. *)
Lemma star_cls_backtrack (p : N -> bool) k x (b : jsstring) :
  forall a n prev,
    forallb p a = true -> (length (a ++ b) <= n)%nat ->
    k (end_prev prev a) b = Some x ->
    (forall a' b', b = a' ++ b' -> a' <> [] -> forallb p a' = true ->
                   k (end_prev prev (a ++ a')) b' = None) ->
    star_loop (m (Cls p)) k n prev (a ++ b) = Some x.
Proof.
  induction a as [|c a IH]; intros n prev Ha Hn Hk Hfail.
  - cbn [app]. destruct n as [|n]; [exact Hk|].
    destruct b as [|c b]; [exact Hk|].
    rewrite star_loop_cls_step.
    assert (E : (if p c then star_loop (m (Cls p)) k n (Some c) b else None)
                = None).
    { destruct (p c) eqn:Hc; [|reflexivity]. apply star_cls_fail.
      intros a' b' -> Ha'. apply (Hfail (c :: a') b' eq_refl); [discriminate|].
      simpl. rewrite Hc. exact Ha'. }
    rewrite E. exact Hk.
  - simpl in Ha. apply andb_true_iff in Ha as [Hc Ha].
    destruct n as [|n]; [simpl in Hn; lia|].
    cbn [app]. rewrite star_loop_cls_step, Hc.
    rewrite (IH n (Some c)); auto.
    simpl in Hn. lia.
Qed.

(** With a continuation that accepts everywhere, a star over a class takes
    the longest run of the class. *)
Lemma star_cls_greedy (p : N -> bool) :
  forall n s prev,
    (length s <= n)%nat ->
    star_loop (m (Cls p)) (fun _ rest => Some rest) n prev s
    = Some (drop_while p s).
Proof.
  induction n as [|n IH]; intros s prev Hn.
  - destruct s; [reflexivity | simpl in Hn; lia].
  - destruct s as [|c s]; [reflexivity|].
    rewrite star_loop_cls_step. simpl drop_while.
    destruct (p c); [|reflexivity].
    rewrite IH by (simpl in Hn; lia). reflexivity.
Qed.

Lemma take_drop_while (p : N -> bool) (s : jsstring) :
  take_while p s ++ drop_while p s = s.
Proof.
  induction s as [|c s IH]; simpl; [reflexivity|].
  destruct (p c); simpl; [rewrite IH|]; reflexivity.
Qed.

Lemma take_while_app (p : N -> bool) (a b : jsstring) :
  forallb p a = true -> take_while p (a ++ b) = a ++ take_while p b.
Proof.
  induction a as [|c a IH]; simpl; [reflexivity|].
  rewrite andb_true_iff. intros [Hc Ha]. rewrite Hc, IH by exact Ha.
  reflexivity.
Qed.

Lemma drop_while_all (p : N -> bool) (s : jsstring) :
  forallb p s = true -> drop_while p s = [].
Proof.
  induction s as [|c s IH]; simpl; [reflexivity|].
  rewrite andb_true_iff. intros [Hc Hs]. rewrite Hc. exact (IH Hs).
Qed.

Lemma matched_app (a b : jsstring) : matched (a ++ b) b = a.
Proof.
  unfold matched. rewrite length_app.
  replace (length a + length b - length b)%nat with (length a) by lia.
  rewrite firstn_app, Nat.sub_diag, firstn_all. simpl. apply app_nil_r.
Qed.

(** A literal text matches when the input begins with it. *)
Lemma m_literal (l : jsstring) :
  forall prev s k,
    m (fold_right (fun c r => Seq (Chr c) r) Eps l) prev s k
    = match strip_prefix l s with
      | Some rest => k (end_prev prev l) rest
      | None => None
      end.
Proof.
  induction l as [|x l IH]; intros prev s k; [reflexivity|].
  cbn [fold_right m]. unfold Chr at 1. cbn [m].
  destruct s as [|c s]; [reflexivity|]. cbn [strip_prefix].
  destruct (N.eqb_spec x c) as [->|_]; [|reflexivity]. apply IH.
Qed.


(** The search skips a prefix in which the pattern matches nowhere. *)
Lemma search_skip (r : re) (pre s : jsstring) :
  forall prev,
    (forall a c b, pre = a ++ c :: b ->
                   match_here r (end_prev prev a) (c :: b ++ s) = None) ->
    search r prev (pre ++ s)
    = match search r (end_prev prev pre) s with
      | Some (before, mat, post) => Some (pre ++ before, mat, post)
      | None => None
      end.
Proof.
  induction pre as [|c pre IH]; intros prev H.
  - simpl. destruct (search r prev s) as [[[x y] z]|]; reflexivity.
  - cbn [app search]. pose proof (H [] c pre eq_refl) as E.
    change (end_prev prev []) with prev in E. rewrite E. rewrite IH.
    + simpl. destruct (search r (Some c) s) as [[[x y] z]|];
        destruct (search r (end_prev (Some c) pre) s) as [[[x' y'] z']|];
        reflexivity.
    + intros a d b ->. exact (H (c :: a) d b eq_refl).
Qed.

(** ** More on [parseArgs] *)

Lemma replace_dashes_two (t : jsstring) :
  replace re_dashes erase (dash :: dash :: t) = t.
Proof.
  unfold replace. cbn [search].
  assert (E : match_here re_dashes None (dash :: dash :: t) = Some t)
    by reflexivity.
  rewrite E. reflexivity.
Qed.

Lemma replace_dashes_one (c : N) (t : jsstring) :
  c <> dash -> replace re_dashes erase (dash :: c :: t) = c :: t.
Proof.
  intros H. unfold replace. cbn [search].
  assert (E : match_here re_dashes None (dash :: c :: t) = Some (c :: t)).
  { unfold match_here, re_dashes, Opt, Chr, dash in *. cbn -[N.eqb].
    rewrite N.eqb_refl. destruct (N.eqb_spec 45 c); [congruence | reflexivity]. }
  rewrite E. reflexivity.
Qed.

Lemma value_part_skip (c : N) (s : jsstring) prev :
  c <> equals -> match_here re_value_part prev (c :: s) = None.
Proof.
  intros H. unfold match_here, re_value_part, Chr, equals in *. cbn -[N.eqb].
  destruct (N.eqb_spec 61 c); [congruence | reflexivity].
Qed.

Lemma search_value_part_none (s : jsstring) :
  forall prev, ~ In equals s -> search re_value_part prev s = None.
Proof.
  induction s as [|c s IH]; intros prev H; [reflexivity|].
  cbn [search].
  rewrite value_part_skip by (intros ->; apply H; left; reflexivity).
  rewrite IH; [reflexivity|]. intros Hin; apply H; right; exact Hin.
Qed.

(** Without an equals sign the second [replace] of the key changes nothing. *)
Lemma replace_value_part_none (s : jsstring) :
  ~ In equals s -> replace re_value_part erase s = s.
Proof. intros H. unfold replace. rewrite search_value_part_none by exact H. reflexivity. Qed.

(** It cuts the name at its equals sign when a value follows on one line. *)
Lemma replace_value_part_cut (name value : jsstring) :
  ~ In equals name -> value <> [] -> forallb dot value = true ->
  replace re_value_part erase (name ++ equals :: value) = name.
Proof.
  intros Hn Hv Hd. unfold replace. rewrite search_skip.
  - destruct value as [|v0 value]; [congruence|].
    simpl in Hd. apply andb_true_iff in Hd as [Hv0 Hd].
    assert (E : match_here re_value_part (end_prev None name)
                  (equals :: v0 :: value) = Some []).
    { unfold match_here, re_value_part, Plus, Chr, equals. cbn -[N.eqb dot star_loop].
      rewrite N.eqb_refl, Hv0. apply star_loop_cls; auto. }
    cbn [search]. rewrite E, matched_all. unfold erase.
    rewrite !app_nil_r. reflexivity.
  - intros a c b ->. apply value_part_skip. intros ->.
    apply Hn. apply in_or_app. right. left. reflexivity.
Qed.

(** The pattern of the third [replace] does not look behind. *)
Lemma dash_word_here (p1 p2 : option N) (s : jsstring) :
  match_here re_dash_word p1 s = match_here re_dash_word p2 s.
Proof.
  unfold match_here, re_dash_word, Chr. cbn [m].
  destruct s as [|c [|d s]]; try reflexivity; destruct (N.eqb dash c); reflexivity.
Qed.

Lemma scan_dash_word_prev (n : nat) (p1 p2 : option N) (s : jsstring) :
  scan n re_dash_word upper_tail p1 s = scan n re_dash_word upper_tail p2 s.
Proof.
  destruct n as [|n]; [reflexivity|].
  cbn [scan]. rewrite (dash_word_here p1 p2). reflexivity.
Qed.

Lemma dash_word_skip (c : N) (s : jsstring) prev :
  c <> dash -> match_here re_dash_word prev (c :: s) = None.
Proof.
  intros H. unfold match_here, re_dash_word, Chr, dash in *. cbn -[N.eqb].
  destruct (N.eqb_spec 45 c); [congruence | reflexivity].
Qed.

Lemma scan_dash_word_plain (a t : jsstring) :
  forall fuel prev, ~ In dash a ->
    scan (length a + fuel) re_dash_word upper_tail prev (a ++ t)
    = a ++ scan fuel re_dash_word upper_tail prev t.
Proof.
  induction a as [|c a IH]; intros fuel prev H; [reflexivity|].
  cbn [length app Nat.add scan].
  rewrite dash_word_skip by (intros ->; apply H; left; reflexivity).
  rewrite IH by (intros Hin; apply H; right; exact Hin).
  rewrite (scan_dash_word_prev fuel (Some c) prev). reflexivity.
Qed.


Lemma camelCase_plain (a : jsstring) : ~ In dash a -> camelCase a = a.
Proof.
  intros H. unfold camelCase, replace_all.
  replace (S (length a)) with (length a + 1)%nat by lia.
  rewrite <- (app_nil_r a) at 2.
  rewrite scan_dash_word_plain by exact H. simpl. apply app_nil_r.
Qed.

Lemma parse_arg_dash (results : object) (arg : jsstring) :
  startsWith dash arg = true ->
  parse_arg results arg
  = match value_of arg with
    | Some v => assign (key_of arg) v results
    | None => results
    end.
Proof.
  intros H. unfold parse_arg, withoutFlag_of. rewrite H. cbn [negb truthy].
  rewrite andb_false_r. reflexivity.
Qed.

Lemma option_re_unfold (K : re) (s : jsstring) :
  match_here (option_re K) None (dash :: dash :: s)
  = match s with
    | c :: s' =>
        if dot c
        then star_loop (m (Cls dot))
               (fun prev x => m (Seq (Chr equals) K) prev x accept)
               (length s') (Some c) s'
        else None
    | [] => None
    end.
Proof. destruct s; reflexivity. Qed.

Lemma after_equals (K : re) prev (c : N) (s : jsstring) :
  m (Seq (Chr equals) K) prev (c :: s) accept
  = if N.eqb equals c then m K (Some c) s accept else None.
Proof. reflexivity. Qed.

(** Such a pattern matches [--name=value] when [K] matches the value. *)
Lemma option_re_match (K : re) (name value x : jsstring) :
  name <> [] -> forallb dot name = true -> ~ In equals value ->
  m K (Some equals) value accept = Some x ->
  match_here (option_re K) None (option_arg name value) = Some x.
Proof.
  intros Hne Hd Hv HK. unfold option_arg. rewrite option_re_unfold.
  destruct name as [|c name]; [congruence|].
  simpl in Hd. apply andb_true_iff in Hd as [Hc Hd]. cbn [app]. rewrite Hc.
  apply star_cls_backtrack.
  - exact Hd.
  - lia.
  - cbv beta. rewrite after_equals, N.eqb_refl. exact HK.
  - intros a' b' E Ha' _. destruct a' as [|d a']; [congruence|].
    injection E as E1 E2. subst d value.
    destruct b' as [|e b']; [reflexivity|].
    cbv beta. rewrite after_equals. destruct (N.eqb_spec equals e) as [<-|]; [|reflexivity].
    exfalso. apply Hv. apply in_or_app. right. left. reflexivity.
Qed.

(** It fails when [K] fails after every equals sign that follows a name. *)
Lemma option_re_fail (K : re) (s : jsstring) :
  (forall a b, s = a ++ equals :: b -> a <> [] -> forallb dot a = true ->
               m K (Some equals) b accept = None) ->
  match_here (option_re K) None (dash :: dash :: s) = None.
Proof.
  intros H. rewrite option_re_unfold. destruct s as [|c s]; [reflexivity|].
  destruct (dot c) eqn:Hc; [|reflexivity]. apply star_cls_fail.
  intros a b -> Ha. destruct b as [|e b]; [reflexivity|].
  cbv beta. rewrite after_equals.
  destruct (N.eqb_spec equals e) as [<-|]; [|reflexivity].
  apply (H (c :: a) b eq_refl); [discriminate|]. simpl. rewrite Hc. exact Ha.
Qed.

Lemma split_unique (x : N) (a n b v : jsstring) :
  ~ In x n -> ~ In x v -> a ++ x :: b = n ++ x :: v -> a = n /\ b = v.
Proof.
  revert n. induction a as [|c a IH]; intros [|d n] Hn Hv E; simpl in E.
  - injection E as ->. split; reflexivity.
  - injection E as <- E. exfalso. apply Hn. left. reflexivity.
  - injection E as -> E. exfalso. apply Hv. rewrite <- E.
    apply in_or_app. right. left. reflexivity.
  - injection E as -> E. destruct (IH n) as [-> ->]; auto.
    intros Hin. apply Hn. right. exact Hin.
Qed.

Lemma option_re_fail_value (K : re) (name value : jsstring) :
  ~ In equals name -> ~ In equals value ->
  m K (Some equals) value accept = None ->
  match_here (option_re K) None (option_arg name value) = None.
Proof.
  intros Hn Hv HK. unfold option_arg. apply option_re_fail.
  intros a b E _ _. symmetry in E.
  destruct (split_unique _ _ _ _ _ Hn Hv E) as [_ ->]. exact HK.
Qed.

Lemma option_re_fail_no_equals (K : re) (t : jsstring) :
  ~ In equals t -> match_here (option_re K) None (dash :: dash :: t) = None.
Proof.
  intros H. apply option_re_fail. intros a b -> _ _. exfalso. apply H.
  apply in_or_app. right. left. reflexivity.
Qed.

Lemma test_anchored_true (r : re) (s x : jsstring) :
  match_here (Seq Bol r) None s = Some x -> test (Seq Bol r) s = true.
Proof. intros H. unfold test. destruct s; cbn [search]; rewrite H; reflexivity. Qed.

Lemma replace_name_part (name value : jsstring) :
  name <> [] -> forallb dot name = true -> ~ In equals value ->
  replace re_name_part erase (option_arg name value) = value.
Proof.
  intros Hne Hd Hv.
  assert (E : match_here re_name_part None (option_arg name value) = Some value).
  { assert (E0 : match_here (option_re Eps) None (option_arg name value)
                 = Some value)
      by (apply option_re_match; auto).
    rewrite <- E0. unfold option_arg. rewrite option_re_unfold.
    destruct name; reflexivity. }
  unfold replace. unfold option_arg in *. cbn [search]. rewrite E. reflexivity.
Qed.

Lemma word_not_dash (c : N) : is_word c = true -> c <> dash.
Proof. intros H ->. discriminate H. Qed.

Lemma word_not_equals (c : N) : is_word c = true -> c <> equals.
Proof. intros H ->. discriminate H. Qed.

Lemma digits_not_in (x : N) (s : jsstring) :
  is_digit x = false -> forallb is_digit s = true -> ~ In x s.
Proof.
  intros Hx. induction s as [|d s IH]; simpl; [tauto|].
  rewrite andb_true_iff. intros [Hd Hs] [E|Hin]; [|exact (IH Hs Hin)].
  subst d. congruence.
Qed.

Lemma key_of_long (t : jsstring) :
  ~ In equals t -> key_of (dash :: dash :: t) = camelCase t.
Proof.
  intros H. unfold key_of. cbn [startsWith]. rewrite N.eqb_refl.
  rewrite replace_dashes_two, replace_value_part_none by exact H. reflexivity.
Qed.

Lemma key_of_option (name value : jsstring) :
  ~ In equals name -> value <> [] -> forallb dot value = true ->
  key_of (option_arg name value) = camelCase name.
Proof.
  intros Hn Hv Hd. unfold key_of, option_arg. cbn [startsWith].
  rewrite N.eqb_refl, replace_dashes_two, replace_value_part_cut by assumption.
  reflexivity.
Qed.

Lemma flag_first_alternative (t : jsstring) prev :
  m (Seq Bol (Seq (Chr dash) (Seq (Cls is_word) Eol))) prev
    (dash :: dash :: t) accept = None.
Proof. destruct prev; reflexivity. Qed.

(** With two dashes the flag pattern asks for a name without equals sign. *)
Lemma flag_long (t : jsstring) :
  match_here re_flag None (dash :: dash :: t)
  = match t with
    | c :: t' =>
        if negb (N.eqb c equals)
        then star_loop (m (Cls (fun c => negb (N.eqb c equals))))
               (fun prev x => m Eol prev x accept) (length t') (Some c) t'
        else None
    | [] => None
    end.
Proof. destruct t; reflexivity. Qed.

Lemma not_equals_all (t : jsstring) :
  ~ In equals t -> forallb (fun c => negb (N.eqb c equals)) t = true.
Proof.
  induction t as [|c t IH]; simpl; [reflexivity|]. intros H.
  destruct (N.eqb_spec c equals) as [->|_]; [exfalso; apply H; left; reflexivity|].
  apply IH. intros Hin. apply H. right. exact Hin.
Qed.

Lemma not_equals_in (t : jsstring) :
  forallb (fun c => negb (N.eqb c equals)) t = true -> ~ In equals t.
Proof.
  induction t as [|c t IH]; simpl; [tauto|].
  rewrite andb_true_iff, negb_true_iff, N.eqb_neq.
  intros [Hc Ht] [E|Hin]; [congruence | exact (IH Ht Hin)].
Qed.

Lemma test_flag_long (t : jsstring) :
  t <> [] -> ~ In equals t -> test re_flag (dash :: dash :: t) = true.
Proof.
  intros Hne H.
  assert (E : match_here re_flag None (dash :: dash :: t) = Some []).
  { rewrite flag_long. destruct t as [|c t]; [congruence|].
    pose proof (not_equals_all _ H) as A. simpl in A.
    apply andb_true_iff in A as [Hc Ht]. rewrite Hc.
    apply star_loop_cls; auto. }
  unfold test. cbn [search]. rewrite E. reflexivity.
Qed.

Lemma test_flag_equals (s : jsstring) :
  In equals s -> test re_flag (dash :: dash :: s) = false.
Proof.
  intros H. apply test_anchored2. rewrite flag_long.
  destruct s as [|c s]; [reflexivity|].
  destruct (negb (N.eqb c equals)) eqn:Hc; [|reflexivity].
  apply star_cls_fail. intros a b -> Ha.
  destruct b as [|e b]; [|reflexivity].
  exfalso. rewrite app_nil_r in H. destruct H as [E|Hin].
  - subst c. rewrite N.eqb_refl in Hc. discriminate Hc.
  - exact (not_equals_in _ Ha Hin).
Qed.

Lemma test_option_re_false (K : re) (s : jsstring) :
  match_here (option_re K) None s = None -> test (option_re K) s = false.
Proof. apply test_anchored. Qed.

Lemma value_of_long (t : jsstring) :
  t <> [] -> ~ In equals t -> value_of (dash :: dash :: t) = Some (VBool true).
Proof.
  intros Hne H. unfold value_of, number_of, boolean_of.
  change re_number with (option_re (Seq (Plus (Cls is_digit)) Eol)).
  change re_false with (option_re (Seq Wb (Seq (Str "false") Wb))).
  rewrite !test_option_re_false by (apply option_re_fail_no_equals; exact H).
  rewrite test_flag_long by assumption. reflexivity.
Qed.

Section MoreArgs.

Variable results : object.

(** X1: an argument made of a dash and one character stores [true] under
    that character when it is a word character, and nothing otherwise. *)
Theorem short_flag (c : N) :
  parse_arg results [dash; c]
  = if is_word c then assign [c] (VBool true) results else results.
Proof.
  rewrite parse_arg_dash by reflexivity.
  destruct (N.eqb_spec c dash) as [->|Hc]; [reflexivity|].
  assert (V : value_of [dash; c]
              = if is_word c then Some (VBool true) else None).
  { assert (N1 : test re_number [dash; c] = false)
      by (apply test_anchored, two_dashes_needed; exact Hc).
    assert (N2 : test re_false [dash; c] = false)
      by (apply test_anchored, two_dashes_needed; exact Hc).
    assert (N3 : test re_string [dash; c] = false)
      by (apply test_anchored, two_dashes_needed; exact Hc).
    unfold value_of, number_of, boolean_of, string_of, withoutFlag_of.
    rewrite N1, N2, N3.
    assert (F : test re_flag [dash; c] = is_word c).
    { unfold test. cbn [search]. unfold match_here, re_flag, Str, lit, Chr, dash in *.
      cbn -[N.eqb is_word]. rewrite N.eqb_refl.
      destruct (is_word c); destruct (N.eqb_spec 45 c); try congruence; reflexivity. }
    rewrite F, andb_false_r. destruct (is_word c); reflexivity. }
  rewrite V. destruct (is_word c) eqn:W; [|reflexivity].
  unfold key_of. cbn [startsWith]. rewrite N.eqb_refl.
  rewrite replace_dashes_one by exact Hc.
  rewrite replace_value_part_none
    by (simpl; intros [E|[]]; exact (word_not_equals _ W E)).
  change (replace_all re_dash_word upper_tail [c]) with (camelCase [c]).
  rewrite camelCase_plain
    by (simpl; intros [E|[]]; exact (word_not_dash _ W E)).
  reflexivity.
Qed.

(** X2: an argument made of two dashes and a name without equals sign
    stores [true] under the name in camel case; under the name itself when
    it holds no dash. *)
Theorem long_flag (t : jsstring) :
  t <> [] -> ~ In equals t ->
  parse_arg results (dash :: dash :: t)
  = assign (camelCase t) (VBool true) results
  /\ (~ In dash t -> camelCase t = t).
Proof.
  intros Hne H. split; [|apply camelCase_plain].
  rewrite parse_arg_dash by reflexivity.
  rewrite value_of_long, key_of_long by assumption. reflexivity.
Qed.

End MoreArgs.

Lemma long_flag_help :
  parse_arg [] (lit "--help") = [(lit "help", VBool true)]
  /\ (~ In dash (lit "help") -> camelCase (lit "help") = lit "help").
Proof.
  apply (long_flag [] (lit "help")).
  - discriminate.
  - simpl. intuition discriminate.
Defined.



Lemma digits_then_end (d : jsstring) prev :
  d <> [] -> forallb is_digit d = true ->
  m (Seq (Plus (Cls is_digit)) Eol) prev d accept = Some [].
Proof.
  intros Hne Hd. destruct d as [|d0 d]; [congruence|].
  simpl in Hd. apply andb_true_iff in Hd as [H0 Hd].
  change (m (Seq (Plus (Cls is_digit)) Eol) prev (d0 :: d) accept)
    with (if is_digit d0
          then star_loop (m (Cls is_digit)) (fun p x => m Eol p x accept)
                 (length d) (Some d0) d
          else None).
  rewrite H0. apply star_loop_cls; auto.
Qed.

Lemma class_then_end_fail (p : N -> bool) (s : jsstring) prev :
  forallb p s = false ->
  m (Seq (Plus (Cls p)) Eol) prev s accept = None.
Proof.
  intros H. destruct s as [|c s]; [reflexivity|].
  change (m (Seq (Plus (Cls p)) Eol) prev (c :: s) accept)
    with (if p c
          then star_loop (m (Cls p)) (fun q x => m Eol q x accept)
                 (length s) (Some c) s
          else None).
  destruct (p c) eqn:Hc; [|reflexivity]. apply star_cls_fail.
  intros a b -> Ha. destruct b as [|e b]; [|reflexivity].
  exfalso. simpl in H. rewrite Hc, app_nil_r, Ha in H. discriminate H.
Qed.

Lemma class_then_end (p : N -> bool) (s : jsstring) prev :
  s <> [] -> forallb p s = true ->
  m (Seq (Plus (Cls p)) Eol) prev s accept = Some [].
Proof.
  intros Hne H. destruct s as [|c s]; [congruence|].
  simpl in H. apply andb_true_iff in H as [Hc Hs].
  change (m (Seq (Plus (Cls p)) Eol) prev (c :: s) accept)
    with (if p c
          then star_loop (m (Cls p)) (fun q x => m Eol q x accept)
                 (length s) (Some c) s
          else None).
  rewrite Hc. apply star_loop_cls; auto.
Qed.

(** After the equals sign, the pattern of [false] asks for the word. *)
Lemma false_word_fail (value : jsstring) :
  strip_prefix (lit "false") value = None ->
  m (Seq Wb (Seq (Str "false") Wb)) (Some equals) value accept = None.
Proof.
  intros H.
  change (m (Seq Wb (Seq (Str "false") Wb)) (Some equals) value accept)
    with (if xorb false (word_at (hd_error value))
          then m (fold_right (fun c r => Seq (Chr c) r) Eps (lit "false"))
                 (Some equals) value (fun p x => m Wb p x accept)
          else None).
  destruct (xorb false (word_at (hd_error value))); [|reflexivity].
  rewrite m_literal, H. reflexivity.
Qed.

Section Options.

Variable results : object.
Variable name : jsstring.
Hypothesis name_not_empty : name <> [].
Hypothesis name_one_line : forallb dot name = true.
Hypothesis name_no_equals : ~ In equals name.

Lemma option_tests (K : re) (value : jsstring) :
  ~ In equals value ->
  test (option_re K) (option_arg name value)
  = match m K (Some equals) value accept with
    | Some _ => true
    | None => false
    end.
Proof.
  intros Hv. destruct (m K (Some equals) value accept) as [x|] eqn:E.
  - apply (test_anchored_true _ _ x). apply option_re_match; assumption.
  - apply test_anchored. apply option_re_fail_value; assumption.
Qed.

Lemma option_not_flag (value : jsstring) : test re_flag (option_arg name value) = false.
Proof.
  apply test_flag_equals. apply in_or_app. right. left. reflexivity.
Qed.

(** X4: [--name=digits] stores the number the digits denote (rounded to a
    double) under the name in camel case, also when it is 0. *)
Theorem option_number (value : jsstring) :
  value <> [] -> forallb is_digit value = true ->
  parse_arg results (option_arg name value)
  = assign (camelCase name) (VNum (round_double (dec value))) results.
Proof.
  intros Hne Hd.
  assert (Hv : ~ In equals value) by (apply digits_not_in; [reflexivity | exact Hd]).
  rewrite parse_arg_dash by reflexivity.
  rewrite key_of_option
    by (try assumption; exact (forallb_digit_impl dot digit_dot _ Hd)).
  unfold value_of, number_of.
  change re_number with (option_re (Seq (Plus (Cls is_digit)) Eol)).
  rewrite option_tests, digits_then_end by assumption.
  rewrite replace_name_part by assumption.
  rewrite to_number_digits by assumption. reflexivity.
Qed.

(** X5: [--name=false] stores the boolean [false] under the name in camel
    case. *)
Theorem option_false :
  parse_arg results (option_arg name (lit "false"))
  = assign (camelCase name) (VBool false) results.
Proof.
  rewrite parse_arg_dash by reflexivity.
  rewrite key_of_option by (auto; discriminate).
  unfold value_of, number_of, boolean_of.
  change re_number with (option_re (Seq (Plus (Cls is_digit)) Eol)).
  change re_false with (option_re (Seq Wb (Seq (Str "false") Wb))).
  rewrite !option_tests by (simpl; intuition discriminate).
  reflexivity.
Qed.

(** X6: [--name=value] stores the value as a string under the name in camel
    case, when the value is not empty, holds no equals sign and no line
    terminator, is not made of digits only and does not begin with
    [false]. *)
Theorem option_string (value : jsstring) :
  value <> [] -> forallb dot value = true -> ~ In equals value ->
  forallb is_digit value = false ->
  strip_prefix (lit "false") value = None ->
  parse_arg results (option_arg name value)
  = assign (camelCase name) (VStr value) results.
Proof.
  intros Hne Hd Hv Hn Hf. rewrite parse_arg_dash by reflexivity.
  rewrite key_of_option by assumption.
  unfold value_of, number_of, boolean_of, string_of, number_of.
  change re_number with (option_re (Seq (Plus (Cls is_digit)) Eol)).
  change re_false with (option_re (Seq Wb (Seq (Str "false") Wb))).
  change re_string with (option_re (Seq (Plus (Cls dot)) Eol)).
  rewrite !option_tests by assumption.
  rewrite class_then_end_fail by exact Hn.
  rewrite false_word_fail by exact Hf.
  rewrite option_not_flag.
  rewrite class_then_end by assumption.
  rewrite replace_name_part by assumption. reflexivity.
Qed.

(** X7: [--name=] with nothing after the equals sign stores nothing. *)
Theorem option_empty_value :
  parse_arg results (option_arg name []) = results.
Proof.
  rewrite parse_arg_dash by reflexivity.
  unfold value_of, number_of, boolean_of, string_of, number_of, withoutFlag_of.
  change re_number with (option_re (Seq (Plus (Cls is_digit)) Eol)).
  change re_false with (option_re (Seq Wb (Seq (Str "false") Wb))).
  change re_string with (option_re (Seq (Plus (Cls dot)) Eol)).
  rewrite !option_tests by (simpl; tauto).
  rewrite option_not_flag. reflexivity.
Qed.

End Options.

Lemma option_number_42 :
  parse_arg [] (lit "--count=42") = [(lit "count", VNum (JNum 42))].
Proof.
  refine (option_number [] (lit "count") _ _ _ (lit "42") _ _);
    try reflexivity; try discriminate.
  simpl. intuition discriminate.
Defined.

Lemma option_false_output :
  parse_arg [] (lit "--output=false") = [(lit "output", VBool false)].
Proof.
  apply (option_false [] (lit "output"));
    try reflexivity; try discriminate.
  simpl. intuition discriminate.
Defined.

Lemma option_string_true :
  parse_arg [] (lit "--verbose=true") = [(lit "verbose", VStr (lit "true"))].
Proof.
  refine (option_string [] (lit "verbose") _ _ _ (lit "true") _ _ _ _ _);
    try reflexivity; try discriminate;
    simpl; intuition discriminate.
Defined.

Lemma option_empty_value_name :
  parse_arg [(lit "name", VStr (lit "old"))] (lit "--name=")
  = [(lit "name", VStr (lit "old"))].
Proof.
  apply (option_empty_value [(lit "name", VStr (lit "old"))] (lit "name"));
    try reflexivity; try discriminate.
  simpl. intuition discriminate.
Defined.

Lemma parseArgs_snoc (argv : list jsstring) (arg : jsstring) :
  2 <= length argv ->
  parseArgs (argv ++ [arg]) = parse_arg (parseArgs argv) arg.
Proof.
  intros H. unfold parseArgs.
  destruct argv as [|x [|y argv]]; try (simpl in H; lia).
  cbn [app skipn]. rewrite fold_left_app. reflexivity.
Qed.

Lemma get_assign_same (key : jsstring) (v : value) (o : object) :
  key <> lit "__proto__" -> get key (assign key v o) = Some v.
Proof.
  intros H. unfold assign. rewrite (str_eqb_neq _ _ H). apply get_put_same.
Qed.

(** An argument touches no entry but the one of its key. *)
Lemma parse_arg_frame (results : object) (arg key : jsstring) :
  key <> key_of arg -> get key (parse_arg results arg) = get key results.
Proof.
  intros H. unfold parse_arg.
  destruct (str_eqb (key_of arg) (lit "args") && truthy (withoutFlag_of arg)).
  - destruct (get (key_of arg) results) as [[b|n0|s0|l]|];
      try (apply get_assign_other; exact H).
    apply get_put_other; exact H.
  - destruct (value_of arg); [|reflexivity]. apply get_assign_other; exact H.
Qed.

(** X8: the last argument decides the entry of its key, whatever came
    before, and leaves the other entries as they were. *)
Theorem last_option_wins (argv : list jsstring) (arg : jsstring) (v : value) :
  2 <= length argv ->
  startsWith dash arg = true -> value_of arg = Some v ->
  key_of arg <> lit "__proto__" ->
  get (key_of arg) (parseArgs (argv ++ [arg])) = Some v
  /\ forall key, key <> key_of arg ->
       get key (parseArgs (argv ++ [arg])) = get key (parseArgs argv).
Proof.
  intros Hl Hd Hv Hk. rewrite parseArgs_snoc by exact Hl. split.
  - rewrite parse_arg_dash, Hv by exact Hd. apply get_assign_same; exact Hk.
  - intros key H. apply parse_arg_frame; exact H.
Qed.

Lemma last_option_wins_twice :
  get (key_of (lit "--name=Jane"))
      (parseArgs (List.map lit ["node"; "cli.js"; "--name=John"; "x"]%string
                  ++ [lit "--name=Jane"]))
  = Some (VStr (lit "Jane"))
  /\ forall key, key <> key_of (lit "--name=Jane") ->
       get key (parseArgs (List.map lit ["node"; "cli.js"; "--name=John"; "x"]%string
                           ++ [lit "--name=Jane"]))
       = get key (parseArgs (List.map lit ["node"; "cli.js"; "--name=John"; "x"]%string)).
Proof.
  apply (last_option_wins
           (List.map lit ["node"; "cli.js"; "--name=John"; "x"]%string)
           (lit "--name=Jane") (VStr (lit "Jane"))).
  - simpl. lia.
  - reflexivity.
  - reflexivity.
  - discriminate.
Defined.

Lemma parse_arg_proto (results : object) (arg : jsstring) :
  get (lit "__proto__") (parse_arg results arg)
  = get (lit "__proto__") results.
Proof.
  destruct (str_eqb (key_of arg) (lit "__proto__")) eqn:E.
  - apply str_eqb_spec in E. unfold parse_arg. rewrite E.
    change (str_eqb (lit "__proto__") (lit "args")) with false.
    cbn [andb]. destruct (value_of arg); reflexivity.
  - apply parse_arg_frame. intros H. rewrite <- H, str_eqb_refl in E.
    discriminate E.
Qed.

(** X9: whatever the command line, the result has no property named
    [__proto__]: the options [--__proto__] and [--__proto__=x] are
    dropped. *)
Theorem no_proto_property (argv : list jsstring) :
  get (lit "__proto__") (parseArgs argv) = None.
Proof.
  unfold parseArgs.
  assert (G : forall args results,
             get (lit "__proto__") (fold_left parse_arg args results)
             = get (lit "__proto__") results).
  { induction args as [|arg args IH]; intros results; [reflexivity|].
    cbn [fold_left]. rewrite IH. apply parse_arg_proto. }
  rewrite G. reflexivity.
Qed.

Lemma parse_arg_new_key (results : object) (arg key : jsstring) :
  get key (parse_arg results arg) <> None ->
  get key results <> None \/ key = key_of arg.
Proof.
  intros H. destruct (str_eqb key (key_of arg)) eqn:E.
  - right. apply str_eqb_spec. exact E.
  - left. rewrite <- (parse_arg_frame results arg key); [exact H|].
    intros ->. rewrite str_eqb_refl in E. discriminate E.
Qed.

(** X10: every property of the result is [args] or the key of an argument
    of the command line that begins with a dash. *)
Theorem keys_come_from_arguments (argv : list jsstring) (key : jsstring) :
  get key (parseArgs argv) <> None ->
  key = lit "args"
  \/ exists arg, In arg (skipn 2 argv)
                 /\ startsWith dash arg = true /\ key_of arg = key.
Proof.
  unfold parseArgs.
  assert (G : forall args results,
             get key (fold_left parse_arg args results) <> None ->
             get key results <> None
             \/ key = lit "args"
             \/ exists arg, In arg args
                            /\ startsWith dash arg = true /\ key_of arg = key).
  { induction args as [|arg args IH]; intros results H; [left; exact H|].
    cbn [fold_left] in H. destruct (IH _ H) as [H1|[H1|(a & Ha & Hd & Hk)]].
    - destruct (parse_arg_new_key _ _ _ H1) as [H2|H2]; [left; exact H2|].
      right. destruct (startsWith dash arg) eqn:Hd.
      + right. exists arg. split; [left; reflexivity|]. split; [exact Hd|].
        symmetry; exact H2.
      + left. rewrite H2. apply positional_key. exact Hd.
    - right. left. exact H1.
    - right. right. exists a. split; [right; exact Ha|]. split; assumption. }
  intros H. destruct (G _ _ H) as [H1|H1]; [|exact H1].
  exfalso. apply H1. reflexivity.
Qed.

Lemma keys_come_from_arguments_example :
  lit "name" = lit "args"
  \/ exists arg, In arg (skipn 2 example_argv)
                 /\ startsWith dash arg = true /\ key_of arg = lit "name".
Proof.
  apply (keys_come_from_arguments example_argv (lit "name")).
  vm_compute. discriminate.
Defined.

Lemma parse_arg_empty (results : object) :
  parse_arg results [] = put (lit "args") (VStr []) results.
Proof. reflexivity. Qed.

Lemma fold_parse_arg_fresh (args : list jsstring) :
  forall results s,
    (forall arg, In arg args -> arg <> []) ->
    (forall arg, In arg args -> startsWith dash arg = true ->
                 key_of arg <> lit "args") ->
    get (lit "args") results = Some (VStr s) ->
    get (lit "args") (fold_left parse_arg args results)
    = match positionals args with
      | [] => Some (VStr s)
      | l => Some (VArr l)
      end.
Proof.
  induction args as [|arg args IH]; intros results s Hne Hk Hg; [exact Hg|].
  cbn [fold_left positionals filter].
  destruct (startsWith dash arg) eqn:Hd; cbn [negb].
  - apply IH.
    + intros a Ha; apply Hne; right; exact Ha.
    + intros a Ha; apply Hk; right; exact Ha.
    + rewrite parse_arg_option; [exact Hg | exact Hd |].
      apply Hk; [left; reflexivity | exact Hd].
  - rewrite (fold_parse_arg args (parse_arg results arg) [arg]).
    + reflexivity.
    + intros a Ha; apply Hne; right; exact Ha.
    + intros a Ha; apply Hk; right; exact Ha.
    + assert (Hn : arg <> []) by (apply Hne; left; reflexivity).
      unfold parse_arg, withoutFlag_of.
      rewrite (positional_key _ Hd), Hd, str_eqb_refl.
      destruct arg as [|c arg]; [congruence|]. cbn [negb truthy andb].
      rewrite Hg. unfold assign. rewrite args_not_proto. apply get_put_same.
Qed.

(** X11: an empty-string argument replaces what was collected under [args]
    by the empty string: the arguments before it are lost, and the array
    holds those after it only. *)
Theorem empty_argument_resets_args (x y : jsstring)
    (before after : list jsstring) :
  (forall arg, In arg after -> arg <> []) ->
  (forall arg, In arg after -> startsWith dash arg = true ->
               key_of arg <> lit "args") ->
  get (lit "args") (parseArgs (x :: y :: before ++ [] :: after))
  = match positionals after with
    | [] => Some (VStr [])
    | l => Some (VArr l)
    end.
Proof.
  intros Hne Hk. unfold parseArgs. cbn [skipn].
  rewrite fold_left_app. cbn [fold_left].
  apply fold_parse_arg_fresh; [exact Hne | exact Hk |].
  rewrite parse_arg_empty. apply get_put_same.
Qed.

Lemma empty_argument_resets_args_example :
  get (lit "args")
      (parseArgs (lit "node" :: lit "cli.js" :: [lit "a"; lit "b"]
                  ++ [] :: [lit "--x"; lit "c"]))
  = Some (VArr [lit "c"]).
Proof.
  apply (empty_argument_resets_args (lit "node") (lit "cli.js")
           [lit "a"; lit "b"] [lit "--x"; lit "c"]).
  - simpl. intros arg H.
    repeat (destruct H as [H|H]; [subst arg; discriminate|]). contradiction.
  - simpl. intros arg H.
    repeat (destruct H as [H|H]; [subst arg; vm_compute; discriminate|]).
    contradiction.
Defined.

(** ** More on the spinner *)

Lemma rawMode_stop (w : session) : rawMode (stop w) = rawMode w.
Proof. unfold stop. destruct (id w); reflexivity. Qed.

Lemma message_stop (w : session) : message (stop w) = message w.
Proof. unfold stop. destruct (id w); reflexivity. Qed.

Lemma next_handle_stop (w : session) : next_handle (stop w) = next_handle w.
Proof. unfold stop. destruct (id w); reflexivity. Qed.

Lemma listeners_start (m0 : jsstring) (timer : Z) (w : session) :
  listeners (start m0 timer w) = listeners w ++ [m0].
Proof.
  unfold start. destruct (timer =? 0)%Z; cbn [sleep emit listen listeners];
    rewrite listeners_stop; reflexivity.
Qed.

Lemma run_listeners_fields (ms : list jsstring) :
  forall buf w,
    listeners (run_listeners ms buf w) = listeners w
    /\ message (run_listeners ms buf w) = message w
    /\ (ms <> [] -> rawMode (run_listeners ms buf w) = false).
Proof.
  induction ms as [|a ms IH]; intros buf w; [simpl; intuition congruence|].
  cbn [run_listeners].
  destruct (IH None (on_readable a buf w)) as (H1 & H2 & H3).
  rewrite H1, H2. repeat split. intros _.
  destruct ms as [|b ms]; [reflexivity|]. apply H3. discriminate.
Qed.

Section MoreSpinner.

Variable chalk : color -> jsstring -> jsstring.

Lemma raw_while_pending_step (w : session) (a : action) :
  raw_while_pending w -> raw_while_pending (step chalk w a).
Proof.
  unfold raw_while_pending. intros H. destruct a; cbn [step].
  - rewrite listeners_start. unfold start.
    destruct (default timer (autoStopTimer w) =? 0)%Z;
      cbn [sleep emit listen rawMode];
      destruct (listeners w); reflexivity.
  - rewrite rawMode_stop, listeners_stop. exact H.
  - unfold success. cbn [emit rawMode listeners].
    rewrite rawMode_stop, listeners_stop. exact H.
  - unfold error. cbn [emit rawMode listeners].
    rewrite rawMode_stop, listeners_stop. exact H.
  - unfold log. cbn [emit rawMode listeners].
    rewrite rawMode_stop, listeners_stop. exact H.
  - unfold readable.
    destruct (run_listeners_fields (listeners w) buf (take_listeners w))
      as (H1 & _ & H3).
    rewrite H1. cbn [take_listeners listeners].
    destruct (listeners w) as [|m0 ms] eqn:E; [exact H|].
    apply H3. discriminate.
  - unfold tick. destruct (find_interval h (intervals w)); exact H.
  - unfold timeout. destruct (pending_sleep k w); [|exact H].
    rewrite rawMode_stop, listeners_stop. exact H.
Qed.

(** X12: in every session, whatever is called and whatever happens, stdin
    is in raw mode exactly while a cursor query is unanswered; a terminal
    that never replies leaves it in raw mode. *)
Theorem raw_mode_while_query_pending (message : jsstring) (timer : Z)
    (trace : list action) :
  let w := run chalk (progress message timer) trace in
  rawMode w = match listeners w with [] => false | _ :: _ => true end.
Proof.
  cbv zeta.
  assert (G : forall tr w, raw_while_pending w ->
                           raw_while_pending (run chalk w tr)).
  { induction tr as [|a tr IH]; intros w H; [exact H|].
    apply IH, raw_while_pending_step, H. }
  apply G. unfold raw_while_pending, progress, start.
  destruct (timer =? 0)%Z; reflexivity.
Qed.

Lemma rowNumber_step (w : session) (a : action) :
  no_input [a] = true -> rowNumber (step chalk w a) = rowNumber w.
Proof.
  intros H. destruct a; try discriminate H; cbn [step].
  - unfold start. destruct (default timer (autoStopTimer w) =? 0)%Z;
      cbn [sleep emit listen rowNumber]; apply rowNumber_stop.
  - apply rowNumber_stop.
  - apply rowNumber_stop.
  - apply rowNumber_stop.
  - apply rowNumber_stop.
  - unfold tick. destruct (find_interval h (intervals w)); reflexivity.
  - unfold timeout. destruct (pending_sleep k w); [|reflexivity].
    rewrite rowNumber_stop. reflexivity.
Qed.

(** X13: the row the spinner draws on changes only when input is read:
    calls, redraws and timeouts leave [rowNumber] as it is. *)
Theorem row_fixed_without_input (w : session) (trace : list action) :
  no_input trace = true -> rowNumber (run chalk w trace) = rowNumber w.
Proof.
  revert w. induction trace as [|a trace IH]; intros w H; [reflexivity|].
  simpl in H. apply andb_true_iff in H as [Ha Ht].
  change (run chalk w (a :: trace)) with (run chalk (step chalk w a) trace).
  rewrite IH by exact Ht. apply rowNumber_step. simpl. rewrite Ha. reflexivity.
Qed.

End MoreSpinner.

Lemma row_fixed_without_input_example :
  rowNumber (run ansi animating
               [ev_interval 1; call_success (lit "done"); ev_timeout 0;
                call_start None None; ev_interval 1])
  = rowNumber animating.
Proof.
  apply (row_fixed_without_input ansi animating
           [ev_interval 1; call_success (lit "done"); ev_timeout 0;
            call_start None None; ev_interval 1]).
  reflexivity.
Defined.

Lemma armed_drop (h h' : nat) (l : list interval) :
  h' <> h ->
  existsb (fun iv => Nat.eqb (handle iv) h) (drop_interval h' l)
  = existsb (fun iv => Nat.eqb (handle iv) h) l.
Proof.
  intros H. induction l as [|iv l IH]; simpl; [reflexivity|].
  destruct (Nat.eqb_spec (handle iv) h') as [E|E]; simpl.
  - rewrite IH. destruct (Nat.eqb_spec (handle iv) h); [congruence | reflexivity].
  - rewrite IH. reflexivity.
Qed.

Lemma armed_bump (h h' : nat) (l : list interval) :
  existsb (fun iv => Nat.eqb (handle iv) h) (bump h' l)
  = existsb (fun iv => Nat.eqb (handle iv) h) l.
Proof.
  induction l as [|iv l IH]; simpl; [reflexivity|].
  rewrite IH. destruct (Nat.eqb (handle iv) h'); reflexivity.
Qed.

Lemma orphan_stop (h : nat) (w : session) : orphan h w -> orphan h (stop w).
Proof.
  intros (A & I & N). unfold orphan. rewrite id_stop, next_handle_stop.
  split; [|split; assumption].
  unfold stop, armed in *. destruct (id w) as [h'|] eqn:E; [|exact A].
  cbn [emit clearInterval intervals]. rewrite armed_drop; [exact A|].
  intros ->. apply I. reflexivity.
Qed.

Lemma orphan_emit (h : nat) (ops : list out_op) (w : session) :
  orphan h w -> orphan h (emit ops w).
Proof. intros H. exact H. Qed.

Lemma orphan_run_listeners (h : nat) (ms : list jsstring) :
  forall buf w, orphan h w -> orphan h (run_listeners ms buf w).
Proof.
  induction ms as [|a ms IH]; intros buf w H; [exact H|].
  cbn [run_listeners]. apply IH. destruct H as (A & I & N).
  unfold orphan, armed in *. cbn [on_readable intervals id next_handle].
  split; [|split].
  - rewrite existsb_app, A. reflexivity.
  - intros E. injection E as E. lia.
  - lia.
Qed.

Section Orphans.

Variable chalk : color -> jsstring -> jsstring.

Lemma orphan_step (h : nat) (w : session) (a : action) :
  orphan h w -> orphan h (step chalk w a).
Proof.
  intros H. destruct a; cbn [step].
  - apply orphan_stop in H. destruct H as (A & I & N). unfold start.
    destruct (default timer (autoStopTimer w) =? 0)%Z;
      unfold orphan, armed in *;
      cbn [sleep emit listen intervals id next_handle];
      repeat split; auto.
  - apply orphan_stop; exact H.
  - apply orphan_emit, orphan_stop; exact H.
  - apply orphan_emit, orphan_stop; exact H.
  - apply orphan_emit, orphan_stop; exact H.
  - apply orphan_run_listeners. exact H.
  - unfold tick. destruct (find_interval h0 (intervals w)); [|exact H].
    destruct H as (A & I & N). unfold orphan, armed in *.
    cbn [redraw count_tick emit intervals id next_handle].
    rewrite armed_bump. repeat split; assumption.
  - unfold timeout. destruct (pending_sleep k w); [|exact H].
    apply orphan_stop. exact H.
Qed.

(** X14: an armed interval that [id] does not hold is never cleared: no
    call and no event, in any order, stops its redraws. *)
Theorem orphan_interval_never_cleared (w : session) (h : nat)
    (trace : list action) :
  armed h w = true -> id w <> Some h -> h < next_handle w ->
  armed h (run chalk w trace) = true
  /\ ticks (step chalk (run chalk w trace) (ev_interval h))
     = S (ticks (run chalk w trace)).
Proof.
  intros A I N.
  assert (G : forall tr w0, orphan h w0 -> orphan h (run chalk w0 tr)).
  { induction tr as [|a tr IH]; intros w0 H; [exact H|].
    apply IH, orphan_step, H. }
  destruct (G trace w (conj A (conj I N))) as (A' & _ & _).
  split; [exact A'|]. cbn [step]. unfold tick, find_interval.
  unfold armed in A'.
  destruct (find (fun iv => Nat.eqb (handle iv) h)
                 (intervals (run chalk w trace))) as [iv|] eqn:F.
  - reflexivity.
  - apply existsb_exists in A' as (iv & Hin & Hh).
    rewrite (find_none _ _ F iv Hin) in Hh. discriminate Hh.
Qed.

(** X15: a [start] in a session with no query pending, followed by the
    reply, arms one interval with the new message, at frame 0, on the row
    read from the reply. *)
Theorem restart_replaces_message (w : session) (m2 : jsstring) (timer : Z)
    (buf : option jsstring) :
  owned w = true -> listeners w = [] ->
  let w2 := run chalk w [call_start (Some m2) (Some timer); ev_readable buf] in
  exists h,
    id w2 = Some h
    /\ intervals w2 = [{| handle := h; startMessage := m2; i := 0 |}]
    /\ rowNumber w2 = Some (rows buf)
    /\ stdout (step chalk w2 (ev_interval h))
       = stdout w2
         ++ [cursorTo 0 (Some (rows buf)); clearLine 0;
             write (chalk cyan (nth 0 frames []) ++ lit " "
                    ++ chalk yellow m2)].
Proof.
  intros Ho Hl. cbv zeta. unfold run. cbn [fold_left step default].
  assert (L : listeners (start m2 timer w) = [m2])
    by (rewrite listeners_start, Hl; reflexivity).
  assert (I : intervals (start m2 timer w) = []).
  { unfold start. destruct (timer =? 0)%Z;
      cbn [sleep emit listen intervals]; apply intervals_stop_owned; exact Ho. }
  unfold readable. rewrite L. cbn [run_listeners].
  set (W := take_listeners (start m2 timer w)).
  assert (IW : intervals W = []) by exact I.
  exists (next_handle W). cbn [on_readable id intervals rowNumber].
  rewrite IW. repeat split.
  unfold tick, find_interval. cbn [on_readable intervals find handle].
  rewrite IW. cbn [app find handle]. rewrite Nat.eqb_refl.
  reflexivity.
Qed.

Lemma message_step (w : session) (a : action) :
  message (step chalk w a) = message w.
Proof.
  destruct a; cbn [step].
  - unfold start. destruct (default timer (autoStopTimer w) =? 0)%Z;
      cbn [sleep emit listen message]; apply message_stop.
  - apply message_stop.
  - apply message_stop.
  - apply message_stop.
  - apply message_stop.
  - unfold readable.
    destruct (run_listeners_fields (listeners w) buf (take_listeners w))
      as (_ & H & _). rewrite H. reflexivity.
  - unfold tick. destruct (find_interval h (intervals w)); reflexivity.
  - unfold timeout. destruct (pending_sleep k w); [|reflexivity].
    rewrite message_stop. reflexivity.
Qed.

(** X16: [start()] without arguments always asks for the message that was
    given to [progress], whatever message later starts were given. *)
Theorem start_default_message (message0 : jsstring) (timer : Z)
    (trace : list action) :
  let w := run chalk (progress message0 timer) trace in
  listeners (step chalk w (call_start None None)) = listeners w ++ [message0].
Proof.
  cbv zeta. cbn [step default]. rewrite listeners_start. f_equal. f_equal.
  assert (G : forall tr w0, message (run chalk w0 tr) = message w0).
  { induction tr as [|a tr IH]; intros w0; [reflexivity|].
    change (run chalk w0 (a :: tr)) with (run chalk (step chalk w0 a) tr).
    rewrite IH. apply message_step. }
  rewrite G. unfold progress, start.
  destruct (timer =? 0)%Z; reflexivity.
Qed.

(** X17: when two or more starts are waiting for the same reply, the last
    listener reads nothing and sets the row to 0. *)
Theorem overlapping_starts_row_zero (w : session) (buf : option jsstring)
    (m1 m2 : jsstring) (ms : list jsstring) :
  listeners w = m1 :: m2 :: ms ->
  rowNumber (step chalk w (ev_readable buf)) = Some (JNum 0).
Proof.
  intros H. cbn [step]. unfold readable. rewrite H.
  assert (Hne : m2 :: ms <> []) by discriminate.
  destruct (exists_last Hne) as (init & lst & E).
  change (m1 :: m2 :: ms) with ([m1] ++ (m2 :: ms)). rewrite E, app_assoc.
  rewrite run_listeners_last. reflexivity.
Qed.

End Orphans.

Lemma orphan_interval_never_cleared_overlapped :
  armed 0 (run ansi overlapped
             [call_stop; call_success (lit "done"); call_start None None;
              ev_readable None; call_stop]) = true
  /\ ticks (step ansi (run ansi overlapped
                         [call_stop; call_success (lit "done");
                          call_start None None; ev_readable None; call_stop])
                 (ev_interval 0))
     = S (ticks (run ansi overlapped
                   [call_stop; call_success (lit "done");
                    call_start None None; ev_readable None; call_stop])).
Proof.
  apply (orphan_interval_never_cleared ansi overlapped 0
           [call_stop; call_success (lit "done"); call_start None None;
            ev_readable None; call_stop]).
  - reflexivity.
  - discriminate.
  - simpl. lia.
Defined.

Lemma restart_replaces_message_example :
  let w2 := run ansi animating
              [call_start (Some (lit "Again")) (Some 0%Z);
               ev_readable (Some (reply (lit "7") (lit "1")))] in
  exists h,
    id w2 = Some h
    /\ intervals w2 = [{| handle := h; startMessage := lit "Again"; i := 0 |}]
    /\ rowNumber w2 = Some (rows (Some (reply (lit "7") (lit "1"))))
    /\ stdout (step ansi w2 (ev_interval h))
       = stdout w2
         ++ [cursorTo 0 (Some (rows (Some (reply (lit "7") (lit "1")))));
             clearLine 0;
             write (ansi cyan (nth 0 frames []) ++ lit " "
                    ++ ansi yellow (lit "Again"))].
Proof.
  apply (restart_replaces_message ansi animating (lit "Again") 0%Z
           (Some (reply (lit "7") (lit "1"))));
    reflexivity.
Defined.

Lemma overlapping_starts_row_zero_example :
  rowNumber (step ansi (step ansi (progress (lit "a") 0)
                          (call_start (Some (lit "b")) None))
               (ev_readable (Some (reply (lit "12") (lit "1")))))
  = Some (JNum 0).
Proof.
  apply (overlapping_starts_row_zero ansi
           (step ansi (progress (lit "a") 0) (call_start (Some (lit "b")) None))
           (Some (reply (lit "12") (lit "1"))) (lit "a") (lit "b") []).
  reflexivity.
Defined.

(** ** More on the cursor locator *)

Lemma quote_body_app (pre : jsstring) :
  forall c rest,
    is_low_surrogate c = false ->
    quote_body (pre ++ c :: rest) = quote_body pre ++ quote_body (c :: rest).
Proof.
  remember (length pre) as n eqn:Hn. revert pre Hn.
  induction n as [n IH] using lt_wf_ind. intros pre Hn c rest Hc.
  destruct pre as [|p0 pre]; [reflexivity|].
  destruct pre as [|p1 pre].
  - cbn [app quote_body]. rewrite Hc.
    destruct (is_high_surrogate p0); [reflexivity|].
    rewrite app_nil_r. reflexivity.
  - cbn [app].
    change (quote_body (p0 :: p1 :: pre ++ c :: rest))
      with (if is_high_surrogate p0
            then if is_low_surrogate p1
                 then p0 :: p1 :: quote_body (pre ++ c :: rest)
                 else UnicodeEscape p0 ++ quote_body ((p1 :: pre) ++ c :: rest)
            else quote_unit p0 ++ quote_body ((p1 :: pre) ++ c :: rest)).
    change (quote_body (p0 :: p1 :: pre))
      with (if is_high_surrogate p0
            then if is_low_surrogate p1
                 then p0 :: p1 :: quote_body pre
                 else UnicodeEscape p0 ++ quote_body (p1 :: pre)
            else quote_unit p0 ++ quote_body (p1 :: pre)).
    rewrite (IH (length pre)) by (subst n; simpl; lia || reflexivity || exact Hc).
    rewrite (IH (length (p1 :: pre)))
      by (subst n; simpl; lia || reflexivity || exact Hc).
    destruct (is_high_surrogate p0); [destruct (is_low_surrogate p1)|];
      rewrite <- ?app_assoc; reflexivity.
Qed.

Lemma quote_body_bracket (rest : jsstring) :
  quote_body (91%N :: rest) = 91%N :: quote_body rest.
Proof. reflexivity. Qed.

Lemma quote_body_semicolon (rest : jsstring) :
  quote_body (59%N :: rest) = 59%N :: quote_body rest.
Proof. reflexivity. Qed.

(** The pattern of [exec] finds the first left bracket and takes the rest
    of the line. *)
Lemma exec_bracket (pre s : jsstring) :
  ~ In 91%N pre ->
  exec0 re_bracket (pre ++ 91%N :: s) = Some (91%N :: take_while dot s).
Proof.
  intros H. unfold exec0. rewrite search_skip.
  - assert (E : match_here re_bracket (end_prev None pre) (91%N :: s)
                = Some (drop_while dot s)).
    { unfold match_here, re_bracket, Chr. cbn [m]. simpl N.eqb. cbv iota.
      apply star_cls_greedy. lia. }
    cbn [search]. rewrite E.
    rewrite <- (take_drop_while dot s) at 1.
    change (91%N :: take_while dot s ++ drop_while dot s)
      with ((91%N :: take_while dot s) ++ drop_while dot s).
    rewrite matched_app. reflexivity.
  - intros a c b ->. apply bracket_skip. intros ->. apply H.
    apply in_or_app. right. left. reflexivity.
Qed.

Lemma coordinates_first_bracket (pre r tail : jsstring) :
  ~ In 91%N pre -> forallb is_digit r = true ->
  field (coordinates (Some (pre ++ 91%N :: r ++ 59%N :: tail))) 0 = Some r.
Proof.
  intros Hp Hr. unfold coordinates, JSON_stringify.
  rewrite quote_body_app by reflexivity.
  rewrite quote_body_bracket, (quote_body_digits _ _ Hr), quote_body_semicolon.
  replace (34%N :: (quote_body pre ++ 91%N :: r ++ 59%N :: quote_body tail)
                   ++ [34%N])
    with ((34%N :: quote_body pre)
            ++ 91%N :: ((r ++ [59%N]) ++ quote_body tail ++ [34%N]))
    by (cbn [app]; repeat (rewrite <- app_assoc; cbn [app]); reflexivity).
  assert (Hplain : forallb plain (r ++ [59%N]) = true).
  { rewrite forallb_app, (forallb_digit_impl plain digit_plain _ Hr). reflexivity. }
  assert (Hdot : forallb dot (r ++ [59%N]) = true).
  { rewrite forallb_app, (forallb_digit_impl dot digit_dot _ Hr). reflexivity. }
  rewrite exec_bracket.
  - rewrite take_while_app by exact Hdot.
    set (U := take_while dot (quote_body tail ++ [34%N])).
    unfold replace_all. rewrite scan_strip_bracket.
    cbn [length]. rewrite length_app.
    replace (S (length (r ++ [59%N]) + length U))
      with (length (r ++ [59%N]) + S (length U))%nat by lia.
    rewrite scan_plain by exact Hplain.
    rewrite <- app_assoc. cbn [app field]. unfold split.
    rewrite split_go_at_sep by (apply digits_no_semicolon; exact Hr).
    reflexivity.
  - simpl. intros [E|Hin]; [discriminate E|].
    exact (quote_body_no_bracket pre Hp Hin).
Qed.

Section Robust.

Variable chalk : color -> jsstring -> jsstring.

(** X18: the row is read from the first left bracket of the buffer up to
    the semicolon: whatever comes before that bracket (no escape character
    is asked for) and whatever follows the semicolon (no [R], or a second
    reply), a string of digits there, at most 2^53, gives that row, and an
    empty one gives 0. *)
Theorem row_from_first_bracket (w : session) (m0 pre r tail : jsstring) :
  listeners w = [m0] ->
  ~ In 91%N pre -> forallb is_digit r = true -> (dec r <= two53)%Z ->
  rowNumber (step chalk w (ev_readable (Some (pre ++ 91%N :: r ++ 59%N :: tail))))
  = Some (JNum (dec r)).
Proof.
  intros Hl Hp Hr Hb. rewrite (readable_one _ _ _ _ Hl).
  cbn [on_readable rowNumber]. unfold rows.
  rewrite coordinates_first_bracket by assumption.
  destruct r as [|d r]; [reflexivity|]. unfold or_zero.
  rewrite to_number_digits by (assumption || discriminate).
  rewrite round_double_exact by exact Hb. reflexivity.
Qed.

End Robust.

Lemma row_from_first_bracket_typed_ahead :
  rowNumber (step ansi (progress (lit "Loading...") 0)
               (ev_readable (Some (lit "q" ++ 91%N :: lit "12"
                                   ++ 59%N :: lit "1R" ++ reply (lit "40") (lit "1")))))
  = Some (JNum 12).
Proof.
  apply (row_from_first_bracket ansi (progress (lit "Loading...") 0)
           (lit "Loading...") (lit "q") (lit "12")
           (lit "1R" ++ reply (lit "40") (lit "1"))).
  - reflexivity.
  - simpl. intuition discriminate.
  - reflexivity.
  - vm_compute. discriminate.
Defined.

(** ** [loading] *)



Lemma find_interval_fresh (h : nat) (l : list interval) (iv : interval) :
  forallb (fun x => Nat.ltb (handle x) h) l = true -> handle iv = h ->
  find_interval h (l ++ [iv]) = Some iv.
Proof.
  intros H E. unfold find_interval.
  induction l as [|x l IH]; simpl.
  - rewrite E, Nat.eqb_refl. reflexivity.
  - simpl in H. apply andb_true_iff in H as [Hx Hl].
    apply Nat.ltb_lt in Hx.
    destruct (Nat.eqb_spec (handle x) h); [lia | exact (IH Hl)].
Qed.

Section Loading.

Variable chalk : color -> jsstring -> jsstring.

Lemma spin_armed (c : Installer.console) (h : nat) (msg : jsstring) (z : Z) :
  find_interval h (Installer.timers c)
  = Some {| handle := h; startMessage := msg; i := z |} ->
  find_interval h (Installer.timers (Installer.spin chalk h c))
  = Some {| handle := h; startMessage := msg; i := incr z |}
  /\ Installer.out (Installer.spin chalk h c)
     = Installer.out c
       ++ [clearLine 0; cursorTo 0 None;
           write (chalk cyan (Installer.frame z) ++ lit " "
                  ++ chalk yellow msg)].
Proof.
  intros H. unfold Installer.spin. rewrite H.
  cbn [Installer.timers Installer.out startMessage i].
  rewrite find_interval_bump, H. split; reflexivity.
Qed.

Lemma spins_armed (c : Installer.console) (h : nat) (msg : jsstring) (n : nat) :
  find_interval h (Installer.timers c)
  = Some {| handle := h; startMessage := msg; i := 0 |} ->
  (Z.of_nat n <= two53)%Z ->
  find_interval h (Installer.timers (Nat.iter n (Installer.spin chalk h) c))
  = Some {| handle := h; startMessage := msg; i := Z.of_nat n |}.
Proof.
  intros H. induction n as [|n IH]; intros Hn; [exact H|].
  rewrite Nat.iter_succ.
  destruct (spin_armed _ _ _ _ (IH ltac:(lia))) as [T _].
  rewrite T, incr_exact by lia. do 2 f_equal. lia.
Qed.

(** X19: after [loading(message)], on a console whose handles are all below
    the next one, the redraw numbered [n] from 0 (for [n] up to 2^53)
    clears the line, moves the cursor to column 0 and writes the glyph at
    index [n mod 10] of [frames], a space and the message. *)
Theorem loading_frame_cycle (c : Installer.console) (message : jsstring)
    (n : nat) :
  forallb (fun iv => Nat.ltb (handle iv) (Installer.next c))
          (Installer.timers c) = true ->
  (Z.of_nat n <= two53)%Z ->
  let h := fst (Installer.loading message c) in
  let c0 := snd (Installer.loading message c) in
  let cn := Nat.iter n (Installer.spin chalk h) c0 in
  Installer.out c0 = Installer.out c ++ [write [10%N]]
  /\ Installer.out (Installer.spin chalk h cn)
     = Installer.out cn
       ++ [clearLine 0; cursorTo 0 None;
           write (chalk cyan (nth (n mod 10) Installer.frames [])
                  ++ lit " " ++ chalk yellow message)].
Proof.
  intros Hf Hn. cbv zeta. cbn [Installer.loading fst snd]. split; [reflexivity|].
  assert (F : find_interval (Installer.next c)
                (Installer.timers
                   {| Installer.timers :=
                        Installer.timers c
                        ++ [{| handle := Installer.next c;
                               startMessage := message; i := 0 |}];
                      Installer.next := S (Installer.next c);
                      Installer.out := Installer.out c ++ [write [10%N]] |})
              = Some {| handle := Installer.next c;
                        startMessage := message; i := 0 |})
    by (apply find_interval_fresh; [exact Hf | reflexivity]).
  destruct (spin_armed _ _ _ _ (spins_armed _ _ _ n F Hn)) as [_ T].
  rewrite T. unfold Installer.frame.
  change (Z.of_nat (length Installer.frames)) with (Z.of_nat 10).
  rewrite <- Nat2Z.inj_mod, Nat2Z.id. reflexivity.
Qed.


End Loading.

Lemma loading_frame_cycle_13 :
  let h := fst (Installer.loading (lit "- Bundling") Installer.empty_console) in
  let c0 := snd (Installer.loading (lit "- Bundling") Installer.empty_console) in
  let cn := Nat.iter 13 (Installer.spin ansi h) c0 in
  Installer.out c0 = Installer.out Installer.empty_console ++ [write [10%N]]
  /\ Installer.out (Installer.spin ansi h cn)
     = Installer.out cn
       ++ [clearLine 0; cursorTo 0 None;
           write (ansi cyan (nth (13 mod 10) Installer.frames [])
                  ++ lit " " ++ ansi yellow (lit "- Bundling"))].
Proof.
  apply (loading_frame_cycle ansi Installer.empty_console (lit "- Bundling") 13).
  - reflexivity.
  - vm_compute. discriminate.
Defined.

(** ** Before the terminal replies *)

Section BeforeReply.

Variable chalk : color -> jsstring -> jsstring.

Lemma waiting_step (w : session) (a : action) :
  waiting w -> no_input [a] = true -> waiting (step chalk w a).
Proof.
  intros (I & T & K) H.
  assert (S : stop w = w) by (apply stop_without_id; exact I).
  destruct a; try discriminate H; cbn [step].
  - unfold start. rewrite S.
    destruct (default timer (autoStopTimer w) =? 0)%Z;
      repeat split; assumption.
  - rewrite S. repeat split; assumption.
  - unfold success. rewrite S. repeat split; assumption.
  - unfold error. rewrite S. repeat split; assumption.
  - unfold log. rewrite S. repeat split; assumption.
  - unfold tick. rewrite T. repeat split; assumption.
  - unfold timeout. destruct (pending_sleep k w); [|repeat split; assumption].
    rewrite stop_without_id by exact I. repeat split; assumption.
Qed.

(** X21: until input is read, [id] stays unset: no interval is armed, no
    frame is drawn, and [stop], called or run by the timeout, changes
    nothing at all. *)
Theorem quiet_before_reply (message : jsstring) (timer : Z)
    (trace : list action) :
  no_input trace = true ->
  let w := run chalk (progress message timer) trace in
  id w = None /\ intervals w = [] /\ ticks w = 0
  /\ step chalk w call_stop = w.
Proof.
  intros H. cbv zeta.
  assert (G : forall tr w0, waiting w0 -> no_input tr = true ->
                            waiting (run chalk w0 tr)).
  { induction tr as [|a tr IH]; intros w0 Hw Ht; [exact Hw|].
    simpl in Ht. apply andb_true_iff in Ht as [Ha Ht].
    apply IH; [|exact Ht]. apply waiting_step; [exact Hw|].
    simpl. rewrite Ha. reflexivity. }
  assert (W0 : waiting (progress message timer)).
  { unfold progress, start. destruct (timer =? 0)%Z; repeat split. }
  destruct (G trace _ W0 H) as (I & T & K).
  repeat split; try assumption. apply stop_without_id. exact I.
Qed.

End BeforeReply.

Lemma quiet_before_reply_example :
  let w := run ansi (progress (lit "Loading...") 500)
             [call_stop; ev_timeout 0; ev_interval 1;
              call_start (Some (lit "b")) None] in
  id w = None /\ intervals w = [] /\ ticks w = 0
  /\ step ansi w call_stop = w.
Proof.
  apply (quiet_before_reply ansi (lit "Loading...") 500
           [call_stop; ev_timeout 0; ev_interval 1;
            call_start (Some (lit "b")) None]).
  reflexivity.
Defined.
